(** * Asset graph construction and same-run compatibility

    A shallow embedding of [dagster/_core/definitions/asset_graph.py]:
    the [AssetNode] / [AssetGraph] data model, [AssetGraph.normalize_assets],
    [AssetGraph.from_assets], [AssetGraph._build_assets_defs_by_op_node_names],
    the execution-set and check-spec queries, [materializable_in_same_run]
    and [_resolve_output_to_destinations].

    Python dictionaries and sets are finite maps and finite sets, exceptions
    are an explicit [result] type, and collaborators whose code lives in
    other modules are gathered in the [Collaborators] class. *)

From Stdlib Require Import Ascii String.
From stdpp Require Import gmap strings list sorting pretty.

Set Default Proof Using "Type".
Set Warnings "-register-all".

(** ** Exceptions *)

Inductive exn :=
| KeyError                (* a failed [d[k]] lookup *)
| CheckError              (* [check.not_none] on [None] *)
| InvariantViolation      (* [node_named] / [output_def_named] on an unknown name *)
| ResolutionError         (* raised by a collaborator *)
| RecursionError          (* the interpreter ran out of nested calls *)
| AttributeError.         (* a method the object does not have *)

Inductive result (A : Type) :=
| Ok (a : A)
| Raise (e : exn).
Arguments Ok {A} a.
Arguments Raise {A} e.

Global Instance result_ret : MRet result := λ A a, Ok a.
Global Instance result_bind : MBind result := λ A B k m,
  match m with
  | Ok a => k a
  | Raise e => Raise e
  end.

(** [for x in l: body x], stopping at the first exception. *)
Fixpoint for_each {A} (body : A → result unit) (l : list A) : result unit :=
  match l with
  | [] => Ok ()
  | x :: l' => body x ;; for_each body l'
  end.

(** [for x in l: acc = body acc x], stopping at the first exception. *)
Fixpoint for_fold {A S} (body : S → A → result S) (acc : S) (l : list A) : result S :=
  match l with
  | [] => Ok acc
  | x :: l' => acc' ← body acc x; for_fold body acc' l'
  end.

(** [d[k]] on a dictionary. *)
Definition subscript `{Countable K} {V} (d : gmap K V) (k : K) : result V :=
  match d !! k with
  | Some v => Ok v
  | None => Raise KeyError
  end.

(** ** Identifiers *)

(** [AssetKey]: a path of segments. *)
Abbreviation AssetKey := (list string).

Record AssetCheckKey := mkAssetCheckKey {
  ck_asset_key : AssetKey;
  ck_name : string
}.

Global Instance AssetCheckKey_eq_dec : EqDecision AssetCheckKey.
Proof. solve_decision. Defined.

Global Instance AssetCheckKey_countable : Countable AssetCheckKey :=
  inj_countable'
    (λ k, (ck_asset_key k, ck_name k))
    (λ p, mkAssetCheckKey p.1 p.2)
    (λ k, match k with mkAssetCheckKey _ _ => eq_refl end).

(** [AssetKeyOrCheckKey = Union[AssetKey, AssetCheckKey]]; [isinstance(k, AssetKey)]
    is the [inl] case. *)
Abbreviation AssetKeyOrCheckKey := (AssetKey + AssetCheckKey)%type.

Record AssetCheckSpec := mkAssetCheckSpec {
  spec_name : string;
  spec_asset_key : AssetKey
}.

(** [AssetCheckSpec.key] *)
Definition spec_key (s : AssetCheckSpec) : AssetCheckKey :=
  mkAssetCheckKey (spec_asset_key s) (spec_name s).

(** ** The order Python uses to sort keys

    [str] compares by code point, sequences compare lexicographically;
    an [AssetKey] compares as its path. *)

Definition str_compare (s1 s2 : string) : comparison :=
  list_compare Ascii.compare (String.list_ascii_of_string s1) (String.list_ascii_of_string s2).

Definition AssetKey_compare (k1 k2 : AssetKey) : comparison :=
  list_compare str_compare k1 k2.

Definition AssetKey_le (k1 k2 : AssetKey) : Prop := AssetKey_compare k1 k2 ≠ Gt.

Definition key_list_compare (l1 l2 : list AssetKey) : comparison :=
  list_compare AssetKey_compare l1 l2.

Definition key_list_le (l1 l2 : list AssetKey) : Prop := key_list_compare l1 l2 ≠ Gt.

Global Instance comparison_eq_dec : EqDecision comparison.
Proof. solve_decision. Defined.

Global Instance AssetKey_le_dec : RelDecision AssetKey_le.
Proof. intros k1 k2. unfold AssetKey_le. apply _. Defined.

Global Instance key_list_le_dec : RelDecision key_list_le.
Proof. intros k1 k2. unfold key_list_le. apply _. Defined.

(** [sorted(xs, key=f)]: a stable sort. Insertion from the right places an
    element before the first one it does not exceed, so equal keys keep
    their input order. *)
Section sorted.
Context {A B : Type} (le : relation B) `{!RelDecision le} (f : A → B).

Fixpoint sorted_insert (x : A) (l : list A) : list A :=
  match l with
  | [] => [x]
  | y :: l' =>
      if decide (le (f x) (f y)) then x :: y :: l' else y :: sorted_insert x l'
  end.

Fixpoint sorted (l : list A) : list A :=
  match l with
  | [] => []
  | x :: l' => sorted_insert x (sorted l')
  end.
End sorted.

(** ** Partitioning *)

Inductive PartitionsDefinition :=
| TimeWindowPartitionsDefinition (cron_schedule start : string)
| StaticPartitionsDefinition (partition_keys : list string)
| DynamicPartitionsDefinition (name : string).

Global Instance PartitionsDefinition_eq_dec : EqDecision PartitionsDefinition.
Proof. solve_decision. Defined.

Definition DailyPartitionsDefinition (start_date : string) : PartitionsDefinition :=
  TimeWindowPartitionsDefinition "0 0 * * *" start_date.

(** The classes of [PartitionMapping]; [CustomPartitionMapping] stands for any
    user subclass of the abstract base. *)
Inductive PartitionMapping :=
| TimeWindowPartitionMapping (start_offset end_offset : Z)
| IdentityPartitionMapping
| AllPartitionMapping
| LastPartitionMapping
| SpecificPartitionsPartitionMapping (partition_keys : list string)
| StaticPartitionMapping
| MultiToSingleDimensionPartitionMapping
| CustomPartitionMapping (class_name : string).

(** [isinstance(m, (TimeWindowPartitionMapping, IdentityPartitionMapping))] *)
Definition isinstance_TimeWindow_or_Identity (m : PartitionMapping) : bool :=
  match m with
  | TimeWindowPartitionMapping _ _ | IdentityPartitionMapping => true
  | _ => false
  end.

(** ** Execution nodes *)

(** [NodeHandle(name, parent)] *)
Inductive NodeHandle :=
| mkNodeHandle (name : string) (parent : option NodeHandle).

Fixpoint NodeHandle_path (h : NodeHandle) : list string :=
  match h with
  | mkNodeHandle name None => [name]
  | mkNodeHandle name (Some p) => name :: NodeHandle_path p
  end.

Fixpoint NodeHandle_of_path (l : list string) : option NodeHandle :=
  match l with
  | [] => None
  | name :: l' => Some (mkNodeHandle name (NodeHandle_of_path l'))
  end.

Fixpoint NodeHandle_of_path_path (h : NodeHandle) :
  NodeHandle_of_path (NodeHandle_path h) = Some h :=
  match h with
  | mkNodeHandle name None => eq_refl
  | mkNodeHandle name (Some p) =>
      f_equal (λ o, Some (mkNodeHandle name o)) (NodeHandle_of_path_path p)
  end.

Global Instance NodeHandle_eq_dec : EqDecision NodeHandle :=
  λ h1 h2,
    match decide (NodeHandle_path h1 = NodeHandle_path h2) with
    | left e =>
        left (Some_inj _ _
          (eq_trans (eq_sym (NodeHandle_of_path_path h1))
             (eq_trans (f_equal NodeHandle_of_path e) (NodeHandle_of_path_path h2))))
    | right n => right (λ e, n (f_equal NodeHandle_path e))
    end.

Global Instance NodeHandle_countable : Countable NodeHandle :=
  inj_countable NodeHandle_path NodeHandle_of_path NodeHandle_of_path_path.

Record NodeInputHandle := mkNodeInputHandle {
  nih_node_handle : NodeHandle;
  nih_input_name : string
}.

Record NodeOutputHandle := mkNodeOutputHandle {
  noh_node_handle : NodeHandle;
  noh_output_name : string
}.

Global Instance NodeInputHandle_eq_dec : EqDecision NodeInputHandle.
Proof. solve_decision. Defined.

Global Instance NodeOutputHandle_eq_dec : EqDecision NodeOutputHandle.
Proof. solve_decision. Defined.

Global Instance NodeOutputHandle_countable : Countable NodeOutputHandle :=
  inj_countable'
    (λ h, (noh_node_handle h, noh_output_name h))
    (λ p, mkNodeOutputHandle p.1 p.2)
    (λ h, match h with mkNodeOutputHandle _ _ => eq_refl end).

(** [OutputMapping.maps_from]: the inner node and output a graph output comes from. *)
Record OutputPointer := mkOutputPointer {
  op_node_name : string;
  op_output_name : string
}.

Record OutputMapping := mkOutputMapping {
  graph_output_name : string;
  maps_from : OutputPointer
}.

(** [NodeInput(node, input_def)], read through [.node_name] and [.input_name]. *)
Record NodeInput := mkNodeInput {
  ni_node_name : string;
  ni_input_name : string
}.

(** [DependencyStructure]: for each node name, for each of its outputs, the
    inputs of sibling nodes wired to it. *)
Abbreviation DependencyStructure := (gmap string (gmap string (list NodeInput))).

(** [NodeDefinition]: an op (a leaf step) or a graph of named nodes, each with
    its own definition. *)
Inductive NodeDefinition :=
| OpDefinition (name : string) (output_defs : list string)
| GraphDefinition (name : string)
    (nodes : list (string * NodeDefinition))
    (dependency_structure : DependencyStructure)
    (output_mappings : list OutputMapping).

Definition node_def_name (d : NodeDefinition) : string :=
  match d with
  | OpDefinition name _ => name
  | GraphDefinition name _ _ _ => name
  end.

(** Modelled from the spec: [GraphDefinition.node_named], [NodeDefinition.output_def_named]
    and [DependencyStructure.output_to_downstream_inputs_for_node] belong to modules
    outside the sources; a descriptor exposes "named inputs/outputs, internal wiring
    and sub-step definitions recursively of the same shape", and asking for a name
    that is not there is an error. *)
Fixpoint node_named (nodes : list (string * NodeDefinition)) (name : string)
  : result (string * NodeDefinition) :=
  match nodes with
  | [] => Raise InvariantViolation
  | n :: nodes' => if decide (n.1 = name) then Ok n else node_named nodes' name
  end.

Definition output_def_names (d : NodeDefinition) : list string :=
  match d with
  | OpDefinition _ output_defs => output_defs
  | GraphDefinition _ _ _ output_mappings => graph_output_name <$> output_mappings
  end.

Definition output_def_named (d : NodeDefinition) (name : string) : result string :=
  if decide (name ∈ output_def_names d) then Ok name else Raise InvariantViolation.

Definition output_to_downstream_inputs_for_node
    (ds : DependencyStructure) (node_name : string) : gmap string (list NodeInput) :=
  default ∅ (ds !! node_name).

(** [_resolve_output_to_destinations(output_name, node_def, handle)].

    The first argument is the number of nested calls the interpreter still
    allows; a call made with none left raises [RecursionError]. The loop over
    [node_def.output_mappings] is [resolve_mappings], with [all_destinations]
    as its accumulator and [recur] the recursive call. *)
Section resolve_mappings.
Context (recur : string → NodeDefinition → NodeHandle → result (list NodeInputHandle)).
Context (output_name : string) (nodes : list (string * NodeDefinition))
        (dependency_structure : DependencyStructure) (handle : NodeHandle).

Fixpoint resolve_mappings (mappings : list OutputMapping)
    (all_destinations : list NodeInputHandle) : result (list NodeInputHandle) :=
  match mappings with
  | [] => Ok all_destinations
  | mapping :: mappings' =>
      if decide (graph_output_name mapping ≠ output_name)
      then resolve_mappings mappings' all_destinations
      else
        let output_pointer := maps_from mapping in
        output_node ← node_named nodes (op_node_name output_pointer);
        inner ← recur (op_output_name output_pointer) output_node.2
                   (mkNodeHandle (op_node_name output_pointer) (Some handle));
        output_def ← output_def_named output_node.2 (op_output_name output_pointer);
        let downstream_input_handles :=
          default []
            (output_to_downstream_inputs_for_node dependency_structure
               (op_node_name output_pointer) !! output_def) in
        resolve_mappings mappings'
          (all_destinations ++ inner ++
           ((λ input_handle,
               mkNodeInputHandle
                 (mkNodeHandle (ni_node_name input_handle) (Some handle))
                 (ni_input_name input_handle)) <$> downstream_input_handles))
  end.
End resolve_mappings.

Fixpoint _resolve_output_to_destinations (calls_left : nat)
    (output_name : string) (node_def : NodeDefinition) (handle : NodeHandle)
  : result (list NodeInputHandle) :=
  match calls_left with
  | O => Raise RecursionError
  | S calls_left' =>
      match node_def with
      | OpDefinition _ _ => Ok []
      | GraphDefinition _ nodes dependency_structure output_mappings =>
          resolve_mappings (_resolve_output_to_destinations calls_left')
            output_name nodes dependency_structure handle output_mappings []
      end
  end.

(** The nesting depth of subgraphs: an op has none. *)
Fixpoint nesting_depth (d : NodeDefinition) : nat :=
  match d with
  | OpDefinition _ _ => 0
  | GraphDefinition _ nodes _ _ =>
      S ((fix go (ns : list (string * NodeDefinition)) : nat :=
            match ns with
            | [] => 0
            | n :: ns' => Nat.max (nesting_depth n.2) (go ns')
            end) nodes)
  end.

(** ** Definitions *)

Inductive MetadataValue :=
| MetadataBool (b : bool)
| MetadataText (s : string).

(** [AssetSpec(key=…, deps=…, metadata=…)] *)
Module AssetSpec.
Record t := mk {
  key : AssetKey;
  deps : gset AssetKey;
  metadata : gmap string MetadataValue
}.
End AssetSpec.

Module SourceAsset.
Record t := mk {
  key : AssetKey;
  partitions_def : option PartitionsDefinition;
  is_observable : bool
}.
End SourceAsset.

(** [AssetsDefinition], reduced to the attributes [asset_graph.py] reads.
    Dictionaries that the code iterates are association lists in insertion
    order. *)
Module AssetsDefinition.
Record t := mk {
  keys : gset AssetKey;
  keys_by_input_name : list (string * AssetKey);
  asset_deps : gmap AssetKey (gset AssetKey);
  check_keys : gset AssetCheckKey;
  check_specs_by_output_name : list (string * AssetCheckSpec);
  node_def : NodeDefinition;
  node_keys_by_input_name : list (string * AssetKey);
  node_keys_by_output_name : list (string * AssetKey);
  is_executable : bool;
  is_materializable : bool;
  can_subset : bool;
  partitions_def : option PartitionsDefinition;
  partition_mappings : gmap AssetKey PartitionMapping;
  metadata_by_key : gmap AssetKey (gmap string MetadataValue)
}.

(** Modelled from the spec: [AssetsDefinition.dependency_keys] is defined in
    [assets.py], outside the sources. A definition exposes "per-identifier
    dependency references"; its dependency keys are the identifiers its own
    identifiers reference as a dependency. *)
Definition dependency_keys (ad : t) : gset AssetKey :=
  ⋃ ((λ k, default ∅ (asset_deps ad !! k)) <$> elements (keys ad)).

(** Modelled from the spec: [AssetsDefinition.asset_and_check_keys] is defined in
    [assets.py], outside the sources: "the whole set" of the asset and check
    identifiers the definition produces. *)
Definition asset_and_check_keys (ad : t) : gset AssetKeyOrCheckKey :=
  set_map inl (keys ad) ∪ set_map inr (check_keys ad).

(** Modelled from the spec: [AssetsDefinition.with_attributes] is defined in
    [assets.py], outside the sources. With [input_asset_key_replacements] it
    rewrites "every definition's input references": the identifiers the
    definition produces, its checks and its execution node are untouched. *)
Definition with_attributes (ad : t) (input_asset_key_replacements : gmap AssetKey AssetKey) : t :=
  let r := λ k : AssetKey, default k (input_asset_key_replacements !! k) in
  mk (keys ad)
     (prod_map id r <$> keys_by_input_name ad)
     (set_map r <$> asset_deps ad)
     (check_keys ad)
     (check_specs_by_output_name ad)
     (node_def ad)
     (prod_map id r <$> node_keys_by_input_name ad)
     (node_keys_by_output_name ad)
     (is_executable ad)
     (is_materializable ad)
     (can_subset ad)
     (partitions_def ad)
     (list_to_map (prod_map r id <$> map_to_list (partition_mappings ad)))
     (metadata_by_key ad).

(** Modelled from the spec: [external_asset_from_spec] is defined in
    [external_asset.py], outside the sources. It builds "an unexecutable
    external stub": one identifier, nothing to run, the spec's metadata. *)
Definition external_asset_from_spec (spec : AssetSpec.t) : t :=
  mk {[AssetSpec.key spec]}
     []
     {[AssetSpec.key spec := AssetSpec.deps spec]}
     ∅
     []
     (OpDefinition "" [])
     []
     []
     false
     false
     false
     None
     ∅
     {[AssetSpec.key spec := AssetSpec.metadata spec]}.
End AssetsDefinition.

(** ** Collaborators

    Functions and constants that [asset_graph.py] imports from modules outside
    the sources. Nothing is assumed about them beyond their types. *)
Class Collaborators := {
  (** [asset_spec.SYSTEM_METADATA_KEY_AUTO_CREATED_STUB_ASSET] *)
  SYSTEM_METADATA_KEY_AUTO_CREATED_STUB_ASSET : string;
  (** [external_asset.create_external_asset_from_source_asset] *)
  create_external_asset_from_source_asset : SourceAsset.t → AssetsDefinition.t;
  (** [ResolvedAssetDependencies(assets_defs, []).get_resolved_asset_key_for_input(ad, input_name)] *)
  get_resolved_asset_key_for_input :
    list AssetsDefinition.t → AssetsDefinition.t → string → result AssetKey;
  (** [NodeDefinition.resolve_input_to_destinations] *)
  resolve_input_to_destinations :
    NodeDefinition → NodeInputHandle → result (list NodeInputHandle);
  (** [NodeDefinition.resolve_output_to_origin(output_name, handle)]: the name of
      the inner output definition and the handle of the node that owns it *)
  resolve_output_to_origin :
    NodeDefinition → string → NodeHandle → result (string * option NodeHandle);
  (** [AssetsDefinition.get_spec_for_check_key] *)
  get_spec_for_check_key : AssetsDefinition.t → AssetCheckKey → result AssetCheckSpec;
  (** [partition_mapping.infer_partition_mapping] *)
  infer_partition_mapping :
    option PartitionMapping → option PartitionsDefinition → option PartitionsDefinition →
    PartitionMapping;
  (** [sys.getrecursionlimit()], counted from the first call of a recursive function *)
  recursion_limit : nat
}.

(** [check.not_none] *)
Definition not_none {A} (o : option A) : result A :=
  match o with
  | Some a => Ok a
  | None => Raise CheckError
  end.

(** ** Nodes *)

Module AssetNode.
Record t := mk {
  key : AssetKey;
  parent_keys : gset AssetKey;
  child_keys : gset AssetKey;
  assets_def : AssetsDefinition.t;
  _check_keys : gset AssetCheckKey
}.

Definition is_materializable (n : t) : bool :=
  AssetsDefinition.is_materializable (assets_def n).

Definition is_executable (n : t) : bool :=
  AssetsDefinition.is_executable (assets_def n).

Definition metadata (n : t) : result (gmap string MetadataValue) :=
  subscript (AssetsDefinition.metadata_by_key (assets_def n)) (key n).

Definition is_partitioned (n : t) : bool :=
  bool_decide (AssetsDefinition.partitions_def (assets_def n) ≠ None).

Definition partitions_def (n : t) : option PartitionsDefinition :=
  AssetsDefinition.partitions_def (assets_def n).

Definition partition_mappings (n : t) : gmap AssetKey PartitionMapping :=
  AssetsDefinition.partition_mappings (assets_def n).

Definition check_keys (n : t) : gset AssetCheckKey := _check_keys n.

Definition execution_set_asset_keys (n : t) : gset AssetKey :=
  if bool_decide (size (AssetsDefinition.keys (assets_def n)) ≤ 1)
     || AssetsDefinition.can_subset (assets_def n)
  then {[key n]}
  else AssetsDefinition.keys (assets_def n).

Definition execution_set_asset_and_check_keys (n : t) : gset AssetKeyOrCheckKey :=
  if AssetsDefinition.can_subset (assets_def n)
  then {[inl (key n)]}
  else AssetsDefinition.asset_and_check_keys (assets_def n).
End AssetNode.

(** ** The dependency graph *)

Record DependencyGraph := mkDependencyGraph {
  upstream : gmap AssetKey (gset AssetKey);
  downstream : gmap AssetKey (gset AssetKey)
}.

Definition all_asset_keys (assets_defs : list AssetsDefinition.t) : gset AssetKey :=
  ⋃ (AssetsDefinition.keys <$> assets_defs).

(** The identifiers that the definitions producing [k] declare as its dependencies. *)
Definition declared_parents (assets_defs : list AssetsDefinition.t) (k : AssetKey)
  : gset AssetKey :=
  ⋃ ((λ ad, if decide (k ∈ AssetsDefinition.keys ad)
             then default ∅ (AssetsDefinition.asset_deps ad !! k) else ∅) <$> assets_defs).

(** Modelled from the spec: [generate_asset_dep_graph] is defined in
    [subset_selector.py], outside the sources. "A full upstream/downstream
    adjacency map is derived by inspecting every definition's declared
    dependency keys (parent-of relation); this map is symmetric by
    construction": every produced identifier has an upstream entry holding its
    declared parents, and every produced or referenced identifier has a
    downstream entry holding the produced identifiers that declare it as a
    parent. *)
Definition generate_asset_dep_graph (assets_defs : list AssetsDefinition.t) : DependencyGraph :=
  let produced := all_asset_keys assets_defs in
  let referenced := ⋃ (AssetsDefinition.dependency_keys <$> assets_defs) in
  mkDependencyGraph
    (set_to_map (λ k, (k, declared_parents assets_defs k)) produced)
    (set_to_map
       (λ k, (k, filter (λ c, k ∈ declared_parents assets_defs c) produced))
       (produced ∪ referenced)).

(** ** Dictionaries that keep insertion order

    [d[k] = v] on a Python [dict]: a key that is already there keeps its
    place and takes the new value, a new key goes last. *)
Fixpoint dict_set {V} (d : list (string * V)) (k : string) (v : V) : list (string * V) :=
  match d with
  | [] => [(k, v)]
  | kv :: d' => if decide (kv.1 = k) then (k, v) :: d' else kv :: dict_set d' k v
  end.

(** [d.get(k)] *)
Fixpoint dict_get {V} (d : list (string * V)) (k : string) : option V :=
  match d with
  | [] => None
  | kv :: d' => if decide (kv.1 = k) then Some kv.2 else dict_get d' k
  end.

(** A list comprehension whose element expression may raise. *)
Fixpoint for_map {A B} (body : A → result B) (l : list A) : result (list B) :=
  match l with
  | [] => Ok []
  | x :: l' => y ← body x; ys ← for_map body l'; Ok (y :: ys)
  end.

(** ** The graph *)

Module AssetGraph.
Record t := mk {
  _asset_nodes_by_key : gmap AssetKey AssetNode.t;
  _assets_defs_by_check_key : gmap AssetCheckKey AssetsDefinition.t;
  _asset_keys_by_node_output_handle : gmap NodeOutputHandle AssetKey
}.

(** Modelled from the spec: [BaseAssetGraph.get] is defined in
    [base_asset_graph.py], outside the sources; it is the lookup "resolve
    identifier → node" in the node table. *)
Definition get (g : t) (asset_key : AssetKey) : result AssetNode.t :=
  subscript (_asset_nodes_by_key g) asset_key.

(** The sort key [sorted(ak for ak in ad.keys)]. *)
Definition sorted_keys (ad : AssetsDefinition.t) : list AssetKey :=
  sorted AssetKey_le id (elements (AssetsDefinition.keys ad)).

(** One iteration of the loop of [_build_assets_defs_by_op_node_names]:
    [node_alias] is the alias chosen for [assets_def], the state is
    [(collisions, result)]. *)
Definition node_alias (collisions : gmap string nat) (assets_def : AssetsDefinition.t)
  : string :=
  let node_name := node_def_name (AssetsDefinition.node_def assets_def) in
  match collisions !! node_name with
  | Some (S n) => node_name +:+ "_" +:+ pretty (S (S n))
  | _ => node_name
  end.

Definition op_node_names_step
    (st : gmap string nat * list (string * AssetsDefinition.t))
    (assets_def : AssetsDefinition.t)
  : gmap string nat * list (string * AssetsDefinition.t) :=
  let node_name := node_def_name (AssetsDefinition.node_def assets_def) in
  let collisions' :=
    match st.1 !! node_name with
    | Some (S n) => <[node_name := S (S n)]> st.1
    | _ => <[node_name := 1]> st.1
    end in
  (collisions', dict_set st.2 (node_alias st.1 assets_def) assets_def).

(** The definitions the loop visits, in the order it visits them. *)
Definition sorted_executable (assets_defs : list AssetsDefinition.t)
  : list AssetsDefinition.t :=
  filter (λ ad, AssetsDefinition.is_executable ad = true)
         (sorted key_list_le sorted_keys assets_defs).

Definition _build_assets_defs_by_op_node_names (assets_defs : list AssetsDefinition.t)
  : list (string * AssetsDefinition.t) :=
  (foldl op_node_names_step (∅, []) (sorted_executable assets_defs)).2.

Section with_collaborators.
Context {env : Collaborators}.

(** [create_external_asset_from_source_asset(a) if isinstance(a, SourceAsset) else a] *)
Definition as_assets_def (a : AssetsDefinition.t + SourceAsset.t) : AssetsDefinition.t :=
  match a with
  | inr source_asset => create_external_asset_from_source_asset source_asset
  | inl assets_def => assets_def
  end.

(** [ad.with_attributes(input_asset_key_replacements={raw_key: resolved_deps.
    get_resolved_asset_key_for_input(ad, input_name) for input_name, raw_key in
    ad.keys_by_input_name.items()})] *)
Definition resolve_inputs (assets_defs : list AssetsDefinition.t)
    (ad : AssetsDefinition.t) : result AssetsDefinition.t :=
  replacements ←
    for_fold
      (λ acc (item : string * AssetKey),
         resolved ← get_resolved_asset_key_for_input assets_defs ad item.1;
         Ok (<[item.2 := resolved]> acc))
      (∅ : gmap AssetKey AssetKey)
      (AssetsDefinition.keys_by_input_name ad);
  Ok (AssetsDefinition.with_attributes ad replacements).

(** [external_asset_from_spec(AssetSpec(key=key,
    metadata={SYSTEM_METADATA_KEY_AUTO_CREATED_STUB_ASSET: True}))] *)
Definition stub_asset (key : AssetKey) : AssetsDefinition.t :=
  AssetsDefinition.external_asset_from_spec
    (AssetSpec.mk key ∅
       {[SYSTEM_METADATA_KEY_AUTO_CREATED_STUB_ASSET := MetadataBool true]}).

Definition normalize_assets (assets : list (AssetsDefinition.t + SourceAsset.t))
  : result (list AssetsDefinition.t) :=
  (* Convert any source assets to external assets *)
  let assets_defs := as_assets_def <$> assets in
  let all_keys := all_asset_keys assets_defs in
  (* Resolve all asset dependencies. *)
  assets_defs' ← for_map (resolve_inputs assets_defs) assets_defs;
  (* Create unexecutable external assets definitions for any referenced keys
     for which no definition was provided. *)
  let all_referenced_asset_keys : gset AssetKey :=
    ⋃ (AssetsDefinition.dependency_keys <$> assets_defs') in
  Ok (assets_defs' ++ (stub_asset <$> elements (all_referenced_asset_keys ∖ all_keys))).

(** The [(ad, key)] pairs of [for ad in assets_defs for key in ad.keys]. *)
Definition defs_and_keys (assets_defs : list AssetsDefinition.t)
  : list (AssetsDefinition.t * AssetKey) :=
  ad ← assets_defs; (λ key, (ad, key)) <$> elements (AssetsDefinition.keys ad).

(** The first loop over [assets_defs], which fills the dictionaries
    [assets_defs_by_check_key] and [check_keys_by_asset_key] (a
    [defaultdict(set)]); [add_check_key] is its body. *)
Definition add_check_key
    (ad : AssetsDefinition.t)
    (acc : gmap AssetCheckKey AssetsDefinition.t * gmap AssetKey (gset AssetCheckKey))
    (ck : AssetCheckKey)
  : gmap AssetCheckKey AssetsDefinition.t * gmap AssetKey (gset AssetCheckKey) :=
  (<[ck := ad]> acc.1,
   <[ck_asset_key ck := default ∅ (acc.2 !! ck_asset_key ck) ∪ {[ck]}]> acc.2).

Definition bind_check_keys (assets_defs : list AssetsDefinition.t)
  : gmap AssetCheckKey AssetsDefinition.t * gmap AssetKey (gset AssetCheckKey) :=
  foldl
    (λ acc ad, foldl (add_check_key ad) acc (elements (AssetsDefinition.check_keys ad)))
    (∅, ∅) assets_defs.

(** [key: AssetNode(key=key, parent_keys=dep_graph["upstream"][key],
    child_keys=dep_graph["downstream"][key], assets_def=ad,
    check_keys=check_keys_by_asset_key[key])], added to the dictionary. *)
Definition add_asset_node (dep_graph : DependencyGraph)
    (check_keys_by_asset_key : gmap AssetKey (gset AssetCheckKey))
    (acc : gmap AssetKey AssetNode.t) (item : AssetsDefinition.t * AssetKey)
  : result (gmap AssetKey AssetNode.t) :=
  parent_keys ← subscript (upstream dep_graph) item.2;
  child_keys ← subscript (downstream dep_graph) item.2;
  Ok (<[item.2 := AssetNode.mk item.2 parent_keys child_keys item.1
                     (default ∅ (check_keys_by_asset_key !! item.2))]> acc).

Definition asset_nodes_by_key (assets_defs : list AssetsDefinition.t)
    (dep_graph : DependencyGraph)
    (check_keys_by_asset_key : gmap AssetKey (gset AssetCheckKey))
  : result (gmap AssetKey AssetNode.t) :=
  for_fold (add_asset_node dep_graph check_keys_by_asset_key) ∅
           (defs_and_keys assets_defs).

(** [assets_defs_by_check_key.update({k: assets_def for k in assets_def.check_keys})] *)
Definition update_check_keys (assets_def : AssetsDefinition.t)
    (assets_defs_by_check_key : gmap AssetCheckKey AssetsDefinition.t)
  : gmap AssetCheckKey AssetsDefinition.t :=
  foldl (λ acc k, <[k := assets_def]> acc) assets_defs_by_check_key
        (elements (AssetsDefinition.check_keys assets_def)).

(** The body of [for op_node_name, assets_def in assets_defs_by_op_node_names.items()].
    Of the dictionaries it fills, the graph keeps [asset_key_by_output] and the
    second [assets_defs_by_check_key]; the calls that only feed the other ones
    are kept for the exceptions they may raise. *)
Definition bind_op_node
    (st : gmap NodeOutputHandle AssetKey * gmap AssetCheckKey AssetsDefinition.t)
    (item : string * AssetsDefinition.t)
  : result (gmap NodeOutputHandle AssetKey * gmap AssetCheckKey AssetsDefinition.t) :=
  let op_node_name := item.1 in
  let assets_def := item.2 in
  let outer_node_handle := mkNodeHandle op_node_name None in
  for_each
    (λ input : string * AssetKey,
       resolve_input_to_destinations (AssetsDefinition.node_def assets_def)
         (mkNodeInputHandle outer_node_handle input.1);; Ok ())
    (AssetsDefinition.node_keys_by_input_name assets_def);;
  asset_key_by_output ←
    for_fold
      (λ acc (output : string * AssetKey),
         origin ← resolve_output_to_origin (AssetsDefinition.node_def assets_def)
                    output.1 outer_node_handle;
         inner_node_handle ← not_none origin.2;
         _resolve_output_to_destinations recursion_limit output.1
           (AssetsDefinition.node_def assets_def) outer_node_handle;;
         Ok (<[mkNodeOutputHandle inner_node_handle origin.1 := output.2]> acc))
      st.1 (AssetsDefinition.node_keys_by_output_name assets_def);
  match AssetsDefinition.check_specs_by_output_name assets_def with
  | [] => Ok (asset_key_by_output, st.2)
  | check_specs =>
      for_each
        (λ check : string * AssetCheckSpec,
           origin ← resolve_output_to_origin (AssetsDefinition.node_def assets_def)
                      check.1 outer_node_handle;
           not_none origin.2;; Ok ())
        check_specs;;
      Ok (asset_key_by_output, update_check_keys assets_def st.2)
  end.

Definition from_assets (assets : list (AssetsDefinition.t + SourceAsset.t)) : result t :=
  assets_defs ← normalize_assets assets;
  let dep_graph := generate_asset_dep_graph assets_defs in
  (* assets_defs_by_check_key, check_keys_by_asset_key *)
  let first_loop := bind_check_keys assets_defs in
  asset_nodes ← asset_nodes_by_key assets_defs dep_graph first_loop.2;
  let assets_defs_by_op_node_names := _build_assets_defs_by_op_node_names assets_defs in
  (* asset_key_by_output = {}, and assets_defs_by_check_key = {} once more:
     the dictionary of the first loop is not read again *)
  bound ← for_fold bind_op_node (∅, ∅) assets_defs_by_op_node_names;
  Ok (mk asset_nodes bound.2 bound.1).

Definition get_execution_set_asset_and_check_keys
    (g : t) (asset_or_check_key : AssetKeyOrCheckKey)
  : result (gset AssetKeyOrCheckKey) :=
  match asset_or_check_key with
  | inl asset_key =>
      node ← get g asset_key;
      Ok (AssetNode.execution_set_asset_and_check_keys node)
  | inr check_key =>
      assets_def ← subscript (_assets_defs_by_check_key g) check_key;
      Ok (if AssetsDefinition.can_subset assets_def
          then {[asset_or_check_key]}
          else AssetsDefinition.asset_and_check_keys assets_def)
  end.

Definition get_spec_for_asset_check (g : t) (asset_check_key : AssetCheckKey)
  : result (option AssetCheckSpec) :=
  match _assets_defs_by_check_key g !! asset_check_key with
  | Some assets_def =>
      spec ← get_spec_for_check_key assets_def asset_check_key; Ok (Some spec)
  | None => Ok None
  end.

(** Modelled from the spec: [BaseAssetGraph.get_partition_mapping] is defined in
    [base_asset_graph.py], outside the sources. It yields "the declared partition
    mapping from child to parent", leaving the choice made when none is
    declared to [infer_partition_mapping]. *)
Definition get_partition_mapping (g : t) (asset_key parent_asset_key : AssetKey)
  : result PartitionMapping :=
  node ← get g asset_key;
  parent ← get g parent_asset_key;
  Ok (infer_partition_mapping
        (AssetNode.partition_mappings node !! parent_asset_key)
        (AssetNode.partitions_def node)
        (AssetNode.partitions_def parent)).
End with_collaborators.

(** [self.get(self._asset_keys_by_node_output_handle[node_output_handle])] *)
Definition get_for_node_output (g : t) (node_output_handle : NodeOutputHandle)
  : result AssetNode.t :=
  asset_key ← subscript (_asset_keys_by_node_output_handle g) node_output_handle;
  get g asset_key.

(** [{key for ad in self.assets_defs for key in ad.check_keys}], where
    [assets_defs] collects the definitions of the nodes and the definitions
    bound to check keys. The set built does not depend on the order of
    [assets_defs] nor on a definition being listed once or more. *)
Definition asset_check_keys (g : t) : gset AssetCheckKey :=
  ⋃ ((λ node, AssetsDefinition.check_keys (AssetNode.assets_def node))
       <$> (map_to_list (_asset_nodes_by_key g)).*2)
  ∪ ⋃ (AssetsDefinition.check_keys <$> (map_to_list (_assets_defs_by_check_key g)).*2).
End AssetGraph.

(** ** Same-run compatibility *)

Record RepositoryHandle := mkRepositoryHandle {
  repository_name : string;
  location_name : string
}.

Global Instance RepositoryHandle_eq_dec : EqDecision RepositoryHandle.
Proof. solve_decision. Defined.

(** What [materializable_in_same_run] reads of a node and of a graph. *)
Class BaseAssetNode (N : Type) := {
  key : N → AssetKey;
  is_materializable : N → bool;
  is_partitioned : N → bool;
  partitions_def : N → option PartitionsDefinition
}.

Class BaseAssetGraph (G N : Type) {node_ops : BaseAssetNode N} := {
  get : G → AssetKey → result N;
  get_partition_mapping : G → AssetKey → AssetKey → result PartitionMapping;
  (** [isinstance(asset_graph, RemoteAssetGraph)] *)
  isinstance_RemoteAssetGraph : G → bool;
  get_repository_handle : G → AssetKey → result RepositoryHandle
}.

(** Python's [a and b] and [a or b] on booleans: [b] is evaluated only when [a]
    does not decide the result. *)
Definition py_and (a b : result bool) : result bool :=
  x ← a; if x : bool then b else Ok false.
Definition py_or (a b : result bool) : result bool :=
  x ← a; if x : bool then Ok true else b.
Infix "&&&" := py_and (at level 40, left associativity).
Infix "|||" := py_or (at level 50, left associativity).

Definition materializable_in_same_run {G N : Type}
    {node_ops : BaseAssetNode N} {graph_ops : BaseAssetGraph G N}
    (asset_graph : G) (child_key parent_key : AssetKey) : result bool :=
  child_node ← get asset_graph child_key;
  parent_node ← get asset_graph parent_key;
  (* both assets must be materializable *)
  Ok (is_materializable child_node)
  &&& Ok (is_materializable parent_node)
  (* the parent must have the same partitioning *)
  &&& Ok (bool_decide (partitions_def child_node = partitions_def parent_node))
  (* the parent must have a simple partition mapping to the child *)
  &&& (Ok (negb (is_partitioned parent_node))
       ||| (mapping ← get_partition_mapping asset_graph (key child_node) (key parent_node);
            Ok (isinstance_TimeWindow_or_Identity mapping)))
  (* the parent must be in the same repository to be materialized alongside the candidate *)
  &&& (Ok (negb (isinstance_RemoteAssetGraph asset_graph))
       ||| (child_handle ← get_repository_handle asset_graph child_key;
            parent_handle ← get_repository_handle asset_graph parent_key;
            Ok (bool_decide (child_handle = parent_handle)))).

Global Instance AssetNode_BaseAssetNode : BaseAssetNode AssetNode.t := {
  key := AssetNode.key;
  is_materializable := AssetNode.is_materializable;
  is_partitioned := AssetNode.is_partitioned;
  partitions_def := AssetNode.partitions_def
}.

(** An [AssetGraph] is not a [RemoteAssetGraph] and has no repository handles. *)
Global Instance AssetGraph_BaseAssetGraph {env : Collaborators}
  : BaseAssetGraph AssetGraph.t AssetNode.t := {
  get := AssetGraph.get;
  get_partition_mapping := AssetGraph.get_partition_mapping;
  isinstance_RemoteAssetGraph := λ _, false;
  get_repository_handle := λ _ _, Raise AttributeError
}.

(** Modelled from the spec: [RemoteAssetGraph] is defined in
    [remote_asset_graph.py], outside the sources. It is a graph that
    "distinguishes node locality": every node belongs to a repository. *)
Module RemoteAssetGraph.
Record node := mkNode {
  node_key : AssetKey;
  node_is_materializable : bool;
  node_partitions_def : option PartitionsDefinition;
  node_partition_mappings : gmap AssetKey PartitionMapping;
  node_repository_handle : RepositoryHandle
}.

Record t := mk {
  _asset_nodes_by_key : gmap AssetKey node
}.
End RemoteAssetGraph.

Global Instance RemoteAssetNode_BaseAssetNode : BaseAssetNode RemoteAssetGraph.node := {
  key := RemoteAssetGraph.node_key;
  is_materializable := RemoteAssetGraph.node_is_materializable;
  is_partitioned := λ n, bool_decide (RemoteAssetGraph.node_partitions_def n ≠ None);
  partitions_def := RemoteAssetGraph.node_partitions_def
}.

Global Instance RemoteAssetGraph_BaseAssetGraph {env : Collaborators}
  : BaseAssetGraph RemoteAssetGraph.t RemoteAssetGraph.node := {
  get := λ g k, subscript (RemoteAssetGraph._asset_nodes_by_key g) k;
  get_partition_mapping := λ g k pk,
    n ← subscript (RemoteAssetGraph._asset_nodes_by_key g) k;
    p ← subscript (RemoteAssetGraph._asset_nodes_by_key g) pk;
    Ok (infer_partition_mapping
          (RemoteAssetGraph.node_partition_mappings n !! pk)
          (RemoteAssetGraph.node_partitions_def n)
          (RemoteAssetGraph.node_partitions_def p));
  isinstance_RemoteAssetGraph := λ _, true;
  get_repository_handle := λ g k,
    n ← subscript (RemoteAssetGraph._asset_nodes_by_key g) k;
    Ok (RemoteAssetGraph.node_repository_handle n)
}.

(** ** What output resolution is meant to reach

    The notions the statements about [_resolve_output_to_destinations] are
    phrased with. *)

(** The input handles reachable from the graph output [output_name] of the node
    [handle] through the internal output mappings: for every mapping of that
    output, the destinations of the mapped output inside the inner node, and
    the inputs of sibling nodes wired to the mapped output. *)
Inductive destination : string → NodeDefinition → NodeHandle → NodeInputHandle → Prop :=
| destination_inner name nodes ds mappings output_name handle mapping output_node d :
    mapping ∈ mappings →
    graph_output_name mapping = output_name →
    node_named nodes (op_node_name (maps_from mapping)) = Ok output_node →
    destination (op_output_name (maps_from mapping)) output_node.2
      (mkNodeHandle (op_node_name (maps_from mapping)) (Some handle)) d →
    destination output_name (GraphDefinition name nodes ds mappings) handle d
| destination_sibling name nodes ds mappings output_name handle mapping input :
    mapping ∈ mappings →
    graph_output_name mapping = output_name →
    input ∈ default []
              (output_to_downstream_inputs_for_node ds (op_node_name (maps_from mapping))
                 !! op_output_name (maps_from mapping)) →
    destination output_name (GraphDefinition name nodes ds mappings) handle
      (mkNodeInputHandle (mkNodeHandle (ni_node_name input) (Some handle))
                         (ni_input_name input)).

(** Every output mapping names a node of its graph and an output of that node,
    at every level of nesting. *)
Fixpoint well_wired (d : NodeDefinition) : Prop :=
  match d with
  | OpDefinition _ _ => True
  | GraphDefinition _ nodes _ mappings =>
      Forall (λ m, ∃ n, node_named nodes (op_node_name (maps_from m)) = Ok n ∧
                        op_output_name (maps_from m) ∈ output_def_names n.2) mappings
      ∧ (fix go (ns : list (string * NodeDefinition)) : Prop :=
           match ns with
           | [] => True
           | n :: ns' => well_wired n.2 ∧ go ns'
           end) nodes
  end.

(** The definition of the node that [h] names, when [root_handle] names a node
    defined by [root]. *)
Fixpoint definition_at (root : NodeDefinition) (root_handle : NodeHandle) (h : NodeHandle)
  : option NodeDefinition :=
  if decide (h = root_handle) then Some root
  else
    match h with
    | mkNodeHandle name (Some parent) =>
        match definition_at root root_handle parent with
        | Some (GraphDefinition _ nodes _ _) =>
            match node_named nodes name with
            | Ok n => Some n.2
            | Raise _ => None
            end
        | _ => None
        end
    | mkNodeHandle _ None => None
    end.

(** A leaf step is an op. *)
Definition is_leaf (d : NodeDefinition) : bool :=
  match d with
  | OpDefinition _ _ => true
  | GraphDefinition _ _ _ _ => false
  end.

(** The handles one output mapping adds for the inputs wired, next to the mapped
    node, to the mapped output. *)
Definition sibling_inputs (ds : DependencyStructure) (handle : NodeHandle)
    (mapping : OutputMapping) : list NodeInputHandle :=
  (λ input, mkNodeInputHandle (mkNodeHandle (ni_node_name input) (Some handle))
                              (ni_input_name input))
    <$> default []
          (output_to_downstream_inputs_for_node ds (op_node_name (maps_from mapping))
             !! op_output_name (maps_from mapping)).

(** The handle of the node reached from [handle] by going down through the
    nodes called [names], the innermost one first. *)
Definition NodeHandle_under (names : list string) (handle : NodeHandle) : NodeHandle :=
  foldr (λ name h, mkNodeHandle name (Some h)) handle names.

(** ** Counting the uses of a node name *)

(** How many definitions of [l] are backed by a node called [node_name]. *)
Definition occurrences (node_name : string) (l : list AssetsDefinition.t) : nat :=
  length (filter (λ ad, node_def_name (AssetsDefinition.node_def ad) = node_name) l).

(** The order [sorted(assets_defs, key=…)] sorts definitions by. *)
Definition by_sorted_keys (ad1 ad2 : AssetsDefinition.t) : Prop :=
  key_list_le (AssetGraph.sorted_keys ad1) (AssetGraph.sorted_keys ad2).

(** ** The node built for a key

    [n] is the node the comprehension of [from_assets] builds for [k] out of the
    definition [ad]. *)
Definition node_built (dep_graph : DependencyGraph)
    (checks : gmap AssetKey (gset AssetCheckKey))
    (ad : AssetsDefinition.t) (k : AssetKey) (n : AssetNode.t) : Prop :=
  ∃ parents children,
    upstream dep_graph !! k = Some parents ∧
    downstream dep_graph !! k = Some children ∧
    n = AssetNode.mk k parents children ad (default ∅ (checks !! k)).

(** ** Binding check keys

    In the loop over the registered definitions, a definition binds its check
    keys when it declares at least one check spec. *)
Definition binds (ad : AssetsDefinition.t) (ck : AssetCheckKey) : Prop :=
  AssetsDefinition.check_specs_by_output_name ad ≠ [] ∧
  ck ∈ AssetsDefinition.check_keys ad.

Global Instance binds_dec ad ck : Decision (binds ad ck).
Proof. unfold binds. apply _. Defined.

(** ** Owning definitions

    The definition the graph holds for an asset key (through its node) or for
    a check key (through the check-key-to-definition mapping). *)
Definition owning_definition (g : AssetGraph.t) (x : AssetKeyOrCheckKey)
  : option AssetsDefinition.t :=
  match x with
  | inl asset_key => AssetNode.assets_def <$> AssetGraph._asset_nodes_by_key g !! asset_key
  | inr check_key => AssetGraph._assets_defs_by_check_key g !! check_key
  end.

(** ** The aliases the loop assigns

    The writes [result[node_alias] = assets_def] that the loop of
    [_build_assets_defs_by_op_node_names] makes over [l], in order, when it
    starts with [collisions]. *)
Fixpoint alias_assignments (collisions : gmap string nat) (l : list AssetsDefinition.t)
  : list (string * AssetsDefinition.t) :=
  match l with
  | [] => []
  | ad :: l' =>
      (AssetGraph.node_alias collisions ad, ad)
        :: alias_assignments (AssetGraph.op_node_names_step (collisions, []) ad).1 l'
  end.

(** The last write to the key [k] in a sequence of writes. *)
Definition last_write {V} (writes : list (string * V)) (k : string) : option V :=
  snd <$> last (filter (λ w, w.1 = k) writes).

(** The input handles at the relative [paths] below [handle]. *)
Definition input_handles_under (paths : list (list string * string)) (handle : NodeHandle)
  : list NodeInputHandle :=
  (λ p, mkNodeInputHandle (NodeHandle_under p.1 handle) p.2) <$> paths.

(** A result that depends on the handle only as the place the relative paths
    start from. *)
Definition relative (run : NodeHandle → result (list NodeInputHandle)) : Prop :=
  (∃ e, (e = InvariantViolation ∨ e = RecursionError) ∧ ∀ handle, run handle = Raise e) ∨
  ∃ paths, Forall (λ p, p.1 ≠ []) paths ∧
           ∀ handle, run handle = Ok (input_handles_under paths handle).

(** ** The outputs of the registered definitions *)

Section outputs.
Context {env : Collaborators}.

(** The body of the loop over [node_keys_by_output_name] in
    [AssetGraph.bind_op_node], for the definition [assets_def] registered
    under the handle [outer_node_handle]. *)
Definition bind_output (assets_def : AssetsDefinition.t) (outer_node_handle : NodeHandle)
    (acc : gmap NodeOutputHandle AssetKey) (output : string * AssetKey)
  : result (gmap NodeOutputHandle AssetKey) :=
  origin ← resolve_output_to_origin (AssetsDefinition.node_def assets_def)
             output.1 outer_node_handle;
  inner_node_handle ← not_none origin.2;
  _resolve_output_to_destinations recursion_limit output.1
    (AssetsDefinition.node_def assets_def) outer_node_handle;;
  Ok (<[mkNodeOutputHandle inner_node_handle origin.1 := output.2]> acc).

(** [h] is the origin of an output with the asset key [k] of a definition
    registered in [items]. *)
Definition output_origin (items : list (string * AssetsDefinition.t))
    (h : NodeOutputHandle) (k : AssetKey) : Prop :=
  ∃ alias ad output name inner,
    (alias, ad) ∈ items ∧
    output ∈ AssetsDefinition.node_keys_by_output_name ad ∧ output.2 = k ∧
    resolve_output_to_origin (AssetsDefinition.node_def ad) output.1
      (mkNodeHandle alias None) = Ok (name, Some inner) ∧
    h = mkNodeOutputHandle inner name.
End outputs.

(** ** Concrete scenarios

    Small inputs on which the definitions above are run. *)

Module Scenario.
(** Collaborators for definitions backed by a single op: an outer input or
    output is its own origin, inputs resolve to themselves, and a declared
    partition mapping is used as it is. *)
Definition collaborators : Collaborators := {|
  SYSTEM_METADATA_KEY_AUTO_CREATED_STUB_ASSET := "dagster/auto_created_stub_asset";
  create_external_asset_from_source_asset := λ s,
    AssetsDefinition.external_asset_from_spec (AssetSpec.mk (SourceAsset.key s) ∅ ∅);
  get_resolved_asset_key_for_input := λ _ ad input_name,
    subscript (list_to_map (AssetsDefinition.keys_by_input_name ad) : gmap string AssetKey)
              input_name;
  resolve_input_to_destinations := λ _ h, Ok [h];
  resolve_output_to_origin := λ _ output_name h, Ok (output_name, Some h);
  get_spec_for_check_key := λ ad ck,
    match filter (λ s, spec_key s = ck)
                 ((AssetsDefinition.check_specs_by_output_name ad).*2) with
    | s :: _ => Ok s
    | [] => Raise KeyError
    end;
  infer_partition_mapping := λ declared _ _, default AllPartitionMapping declared;
  recursion_limit := 1000
|}.

(** An executable, materializable definition backed by the op [op_name]: it
    produces [produced], each of them depending on [deps], and runs [checks]. *)
Definition assets_def (op_name : string) (produced : list AssetKey)
    (deps : list AssetKey) (checks : list AssetCheckKey) (can_subset : bool)
    (partitions : option PartitionsDefinition)
    (mappings : gmap AssetKey PartitionMapping) : AssetsDefinition.t :=
  AssetsDefinition.mk
    (list_to_set produced)
    ((λ k, (default "" (last k), k)) <$> deps)
    (list_to_map ((λ k, (k, list_to_set deps)) <$> produced))
    (list_to_set checks)
    ((λ ck, (ck_name ck, mkAssetCheckSpec (ck_name ck) (ck_asset_key ck))) <$> checks)
    (OpDefinition op_name (((λ k, default "" (last k)) <$> produced) ++ (ck_name <$> checks)))
    ((λ k, (default "" (last k), k)) <$> deps)
    ((λ k, (default "" (last k), k)) <$> produced)
    true true can_subset partitions mappings ∅.

(** *** A day-partitioned parent and an unpartitioned child *)

Definition daily : PartitionsDefinition := DailyPartitionsDefinition "2024-01-01".

Definition daily_parent : AssetsDefinition.t :=
  assets_def "parent" [["parent"]] [] [] false (Some daily) ∅.

Definition unpartitioned_child : AssetsDefinition.t :=
  assets_def "child" [["child"]] [["parent"]] [] false None
    {[ ["parent"] := TimeWindowPartitionMapping 0 0 ]}.

Definition daily_child : AssetsDefinition.t :=
  assets_def "child" [["child"]] [["parent"]] [] false (Some daily)
    {[ ["parent"] := TimeWindowPartitionMapping 0 0 ]}.

(** *** Two definitions on the op [foo] next to one on an op called [foo_2] *)

Definition first_foo : AssetsDefinition.t :=
  assets_def "foo" [["a"]] [] [mkAssetCheckKey ["a"] "c1"] false None ∅.

Definition second_foo : AssetsDefinition.t :=
  assets_def "foo" [["b"]] [] [mkAssetCheckKey ["b"] "c2"] false None ∅.

Definition foo_2 : AssetsDefinition.t :=
  assets_def "foo_2" [["c"]] [] [] false None ∅.

(** *** One definition producing three assets, not subsettable *)

Definition three_assets : AssetsDefinition.t :=
  assets_def "three" [["a"]; ["b"]; ["c"]] [] [] false None ∅.

(** *** A definition with two check specs, subset to the first check *)

Definition check_1 : AssetCheckKey := mkAssetCheckKey ["a"] "c1".
Definition check_2 : AssetCheckKey := mkAssetCheckKey ["a"] "c2".

(** [ad] with [selected] as its check keys, the rest as it is. *)
Definition select_checks (ad : AssetsDefinition.t) (selected : list AssetCheckKey)
  : AssetsDefinition.t :=
  AssetsDefinition.mk
    (AssetsDefinition.keys ad)
    (AssetsDefinition.keys_by_input_name ad)
    (AssetsDefinition.asset_deps ad)
    (list_to_set selected)
    (AssetsDefinition.check_specs_by_output_name ad)
    (AssetsDefinition.node_def ad)
    (AssetsDefinition.node_keys_by_input_name ad)
    (AssetsDefinition.node_keys_by_output_name ad)
    (AssetsDefinition.is_executable ad)
    (AssetsDefinition.is_materializable ad)
    (AssetsDefinition.can_subset ad)
    (AssetsDefinition.partitions_def ad)
    (AssetsDefinition.partition_mappings ad)
    (AssetsDefinition.metadata_by_key ad).

Definition first_check_only : AssetsDefinition.t :=
  select_checks (assets_def "checked" [["a"]] [] [check_1; check_2] true None ∅) [check_1].

(** *** Two check-only definitions on the same op *)

Definition checks_on_a : AssetsDefinition.t :=
  assets_def "checks" [] [] [mkAssetCheckKey ["a"] "c"] false None ∅.

Definition checks_on_b : AssetsDefinition.t :=
  assets_def "checks" [] [] [mkAssetCheckKey ["b"] "c"] false None ∅.

(** *** A graph whose output feeds a nested subgraph

    [outer] holds the op [A] and the subgraph [H]; the output [result] of
    [A] is the graph output [out] and is wired to the input [x] of [H]. *)

Definition subgraph_H : NodeDefinition :=
  GraphDefinition "H" [("B", OpDefinition "B" ["result"])] ∅ [].

Definition outer : NodeDefinition :=
  GraphDefinition "outer"
    [("A", OpDefinition "A" ["result"]); ("H", subgraph_H)]
    {[ "A" := {[ "result" := [mkNodeInput "H" "x"] ]} ]}
    [mkOutputMapping "out" (mkOutputPointer "A" "result")].

Definition outer_handle : NodeHandle := mkNodeHandle "outer" None.
End Scenario.

Module ScenarioGraphs.
Import Scenario.

(** The graph a construction yields, for constructions that succeed. *)
Definition graph_of (r : result AssetGraph.t) : AssetGraph.t :=
  match r with
  | Ok g => g
  | Raise _ => AssetGraph.mk ∅ ∅ ∅
  end.

(** The normalized definitions, for normalizations that succeed. *)
Definition defs_of (r : result (list AssetsDefinition.t)) : list AssetsDefinition.t :=
  match r with
  | Ok assets_defs => assets_defs
  | Raise _ => []
  end.

(** The node of a key, for keys that have one. *)
Definition node_of (g : AssetGraph.t) (k : AssetKey) : AssetNode.t :=
  default (AssetNode.mk k ∅ ∅ daily_parent ∅) (AssetGraph._asset_nodes_by_key g !! k).

Definition partitioned_parent_graph : AssetGraph.t :=
  graph_of (AssetGraph.from_assets (env := collaborators)
              [inl daily_parent; inl unpartitioned_child]).

Definition same_partitioning_graph : AssetGraph.t :=
  graph_of (AssetGraph.from_assets (env := collaborators)
              [inl daily_parent; inl daily_child]).

Definition alias_collision_graph : AssetGraph.t :=
  graph_of (AssetGraph.from_assets (env := collaborators)
              [inl first_foo; inl second_foo; inl foo_2]).

Definition three_assets_graph : AssetGraph.t :=
  graph_of (AssetGraph.from_assets (env := collaborators) [inl three_assets]).

Definition first_check_only_graph : AssetGraph.t :=
  graph_of (AssetGraph.from_assets (env := collaborators) [inl first_check_only]).
End ScenarioGraphs.

(** * Properties *)

(** ** The result monad *)

Lemma bind_Ok {A B} (m : result A) (k : A → result B) (b : B) :
  m ≫= k = Ok b ↔ ∃ a, m = Ok a ∧ k a = Ok b.
Proof.
  destruct m as [a|e]; simpl; split.
  - eauto.
  - by intros (a' & [= ->] & ?).
  - done.
  - by intros (? & ? & ?).
Qed.

Lemma subscript_Ok `{Countable K} {V} (d : gmap K V) (k : K) (v : V) :
  subscript d k = Ok v ↔ d !! k = Some v.
Proof. unfold subscript. destruct (d !! k); split; congruence. Qed.

Lemma subscript_KeyError `{Countable K} {V} (d : gmap K V) (k : K) :
  d !! k = None → subscript d k = Raise KeyError.
Proof. unfold subscript. by intros ->. Qed.

(** ** Same-run compatibility *)

Section same_run.
Context {G N : Type} {node_ops : BaseAssetNode N} {graph_ops : BaseAssetGraph G N}.
Implicit Types (asset_graph : G) (child_key parent_key : AssetKey).

(** The clause on the partition mapping, followed by the rest of the chain. *)
Lemma simple_mapping_clause asset_graph (cn pn : N) (rest : result bool) :
  ((if negb (is_partitioned pn) then Ok true
    else get_partition_mapping asset_graph (key cn) (key pn)
         ≫= λ mapping, Ok (isinstance_TimeWindow_or_Identity mapping))
   ≫= λ x : bool, if x then rest else Ok false) = Ok true ↔
  (is_partitioned pn = false ∨
   ∃ mapping,
     get_partition_mapping asset_graph (key cn) (key pn) = Ok mapping ∧
     isinstance_TimeWindow_or_Identity mapping = true) ∧ rest = Ok true.
Proof.
  destruct (is_partitioned pn); simpl; [|by intuition].
  destruct (get_partition_mapping asset_graph (key cn) (key pn)) as [m|e]; simpl.
  - destruct (isinstance_TimeWindow_or_Identity m) eqn:Hs; split.
    + intros ->. split; [right; eauto|done].
    + by intros [_ ->].
    + done.
    + intros [[?|(m' & [= <-] & ?)] _]; congruence.
  - split; [done|]. intros [[?|(m' & ? & ?)] _]; done.
Qed.

(** The clause on the repository handles. *)
Lemma same_repository_clause asset_graph child_key parent_key :
  (if negb (isinstance_RemoteAssetGraph asset_graph) then Ok true
   else get_repository_handle asset_graph child_key
        ≫= λ child_handle,
             get_repository_handle asset_graph parent_key
             ≫= λ parent_handle, Ok (bool_decide (child_handle = parent_handle)))
  = Ok true ↔
  (isinstance_RemoteAssetGraph asset_graph = true →
   ∃ handle,
     get_repository_handle asset_graph child_key = Ok handle ∧
     get_repository_handle asset_graph parent_key = Ok handle).
Proof.
  destruct (isinstance_RemoteAssetGraph asset_graph); simpl; [|by intuition].
  destruct (get_repository_handle asset_graph child_key) as [hc|e]; simpl;
    [|split; [done|by intros [? [? _]]]].
  destruct (get_repository_handle asset_graph parent_key) as [hp|e]; simpl;
    [|split; [done|by intros [? [_ ?]]]].
  case_bool_decide as Heq; split.
  - intros _ _. subst. eauto.
  - done.
  - done.
  - intros Hh. destruct Hh as (h & [= <-] & [= <-]); done.
Qed.

(** C1. For every graph and every pair of asset keys,
    [materializable_in_same_run] returns true exactly when both keys have a
    node, both nodes are materializable, both have the same partitioning,
    the parent is unpartitioned or the partition mapping from the child to the
    parent is a time-window or identity mapping, and, when the graph is a
    remote graph, both keys have the same repository handle. *)
Theorem materializable_in_same_run_iff asset_graph child_key parent_key :
  materializable_in_same_run asset_graph child_key parent_key = Ok true ↔
  ∃ child_node parent_node,
    get asset_graph child_key = Ok child_node ∧
    get asset_graph parent_key = Ok parent_node ∧
    is_materializable child_node = true ∧
    is_materializable parent_node = true ∧
    partitions_def child_node = partitions_def parent_node ∧
    (is_partitioned parent_node = false ∨
     ∃ mapping,
       get_partition_mapping asset_graph (key child_node) (key parent_node) = Ok mapping ∧
       isinstance_TimeWindow_or_Identity mapping = true) ∧
    (isinstance_RemoteAssetGraph asset_graph = true →
     ∃ handle,
       get_repository_handle asset_graph child_key = Ok handle ∧
       get_repository_handle asset_graph parent_key = Ok handle).
Proof.
  unfold materializable_in_same_run, py_and, py_or.
  destruct (get asset_graph child_key) as [cn|e] eqn:Hc; simpl;
    [|split; [done|by intros (? & ? & ? & _)]].
  destruct (get asset_graph parent_key) as [pn|e] eqn:Hp; simpl;
    [|split; [done|by intros (? & ? & _ & ? & _)]].
  destruct (is_materializable cn) eqn:Hmc; simpl;
    [|split; [done|intros (? & ? & [= <-] & [= <-] & ? & _); congruence]].
  destruct (is_materializable pn) eqn:Hmp; simpl;
    [|split; [done|intros (? & ? & [= <-] & [= <-] & _ & ? & _); congruence]].
  case_bool_decide as Hpd; simpl;
    [|split; [done|intros (? & ? & [= <-] & [= <-] & _ & _ & ? & _); congruence]].
  rewrite simple_mapping_clause, same_repository_clause.
  split.
  - intros [Hmap Hrepo]. exists cn, pn. done.
  - intros (cn' & pn' & [= <-] & [= <-] & _ & _ & _ & Hmap & Hrepo). done.
Qed.

(** C4, as the code has it. When the parent is partitioned by day and the
    partition mapping from the child to the parent is a time-window mapping
    (both nodes materializable, same repository on a remote graph),
    [materializable_in_same_run] returns true exactly when the child has the
    parent's day partitioning; for an unpartitioned child it returns false. *)
Theorem same_run_day_partitioned_parent asset_graph child_key parent_key
    (child_node parent_node : N) (start_date : string) (start_offset end_offset : Z) :
  get asset_graph child_key = Ok child_node →
  get asset_graph parent_key = Ok parent_node →
  is_materializable child_node = true →
  is_materializable parent_node = true →
  partitions_def parent_node = Some (DailyPartitionsDefinition start_date) →
  get_partition_mapping asset_graph (key child_node) (key parent_node)
    = Ok (TimeWindowPartitionMapping start_offset end_offset) →
  (isinstance_RemoteAssetGraph asset_graph = true →
   ∃ handle,
     get_repository_handle asset_graph child_key = Ok handle ∧
     get_repository_handle asset_graph parent_key = Ok handle) →
  materializable_in_same_run asset_graph child_key parent_key
    = Ok (bool_decide
            (partitions_def child_node = Some (DailyPartitionsDefinition start_date)))
  ∧ (partitions_def child_node = None →
     materializable_in_same_run asset_graph child_key parent_key = Ok false).
Proof.
  intros Hc Hp Hmc Hmp Hpd Hmap Hrepo.
  assert (materializable_in_same_run asset_graph child_key parent_key
    = Ok (bool_decide
            (partitions_def child_node = Some (DailyPartitionsDefinition start_date))))
    as Hrun.
  { unfold materializable_in_same_run, py_and, py_or. rewrite Hc, Hp. simpl.
    rewrite Hmc, Hmp. simpl. rewrite Hpd.
    case_bool_decide as Hcd; simpl; [|done].
    assert ((if negb (is_partitioned parent_node) then Ok true
             else get_partition_mapping asset_graph (key child_node) (key parent_node)
                  ≫= λ mapping, Ok (isinstance_TimeWindow_or_Identity mapping)) = Ok true)
      as ->.
    { destruct (is_partitioned parent_node); simpl; [|done]. by rewrite Hmap. }
    simpl. by apply same_repository_clause. }
  split; [done|]. intros Hnone. rewrite Hrun, Hnone. done.
Qed.
End same_run.

(** C4, as the claim states it, fails: a parent partitioned by day, an
    unpartitioned child that declares a time-window mapping to it, both
    materializable, in a graph that is not a remote graph; the child is not
    materializable in the parent's run. *)
Lemma same_run_unpartitioned_child_refuted :
  let g := ScenarioGraphs.partitioned_parent_graph in
  AssetGraph.from_assets (env := Scenario.collaborators)
    [inl Scenario.daily_parent; inl Scenario.unpartitioned_child] = Ok g ∧
  (AssetNode.is_materializable <$> AssetGraph._asset_nodes_by_key g !! ["child"]) = Some true ∧
  (AssetNode.is_materializable <$> AssetGraph._asset_nodes_by_key g !! ["parent"]) = Some true ∧
  (AssetNode.partitions_def <$> AssetGraph._asset_nodes_by_key g !! ["parent"])
    = Some (Some (DailyPartitionsDefinition "2024-01-01")) ∧
  (AssetNode.partitions_def <$> AssetGraph._asset_nodes_by_key g !! ["child"]) = Some None ∧
  AssetGraph.get_partition_mapping (env := Scenario.collaborators) g ["child"] ["parent"]
    = Ok (TimeWindowPartitionMapping 0 0) ∧
  isinstance_RemoteAssetGraph
    (BaseAssetGraph := AssetGraph_BaseAssetGraph (env := Scenario.collaborators)) g
    = false ∧
  materializable_in_same_run
    (graph_ops := AssetGraph_BaseAssetGraph (env := Scenario.collaborators)) g ["child"] ["parent"]
    = Ok false.
Proof. intros g. repeat (split; [vm_compute; reflexivity|]). vm_compute. reflexivity. Qed.

Lemma same_run_day_partitioned_parent_witness :
  materializable_in_same_run
    (graph_ops := AssetGraph_BaseAssetGraph (env := Scenario.collaborators))
    ScenarioGraphs.same_partitioning_graph ["child"] ["parent"] = Ok true.
Proof.
  pose (g := ScenarioGraphs.same_partitioning_graph).
  destruct (AssetGraph._asset_nodes_by_key g !! ["child"]) as [cn|] eqn:Hcn;
    [|by vm_compute in Hcn].
  destruct (AssetGraph._asset_nodes_by_key g !! ["parent"]) as [pn|] eqn:Hpn;
    [|by vm_compute in Hpn].
  refine (eq_trans (proj1 (same_run_day_partitioned_parent
            (graph_ops := AssetGraph_BaseAssetGraph (env := Scenario.collaborators))
            g ["child"] ["parent"] cn pn "2024-01-01" 0 0 _ _ _ _ _ _ _)) _).
  - apply subscript_Ok, Hcn.
  - apply subscript_Ok, Hpn.
  - vm_compute in Hcn. injection Hcn as <-. reflexivity.
  - vm_compute in Hpn. injection Hpn as <-. reflexivity.
  - vm_compute in Hpn. injection Hpn as <-. reflexivity.
  - vm_compute in Hcn. injection Hcn as <-.
    vm_compute in Hpn. injection Hpn as <-. vm_compute. reflexivity.
  - intros Hr. vm_compute in Hr. discriminate Hr.
  - vm_compute in Hcn. injection Hcn as <-. vm_compute. reflexivity.
Defined.

(** ** The order on keys *)

Record compare_ok {A} (cmp : A → A → comparison) : Prop := mk_compare_ok {
  cmp_eq x y : cmp x y = Eq ↔ x = y;
  cmp_opp x y : cmp y x = CompOpp (cmp x y);
  cmp_trans x y z c : cmp x y = c → cmp y z = c → cmp x z = c
}.

Lemma list_compare_ok {A} (cmp : A → A → comparison) :
  compare_ok cmp → compare_ok (list_compare cmp).
Proof.
  intros [Heq Hopp Htrans]. split.
  - intros. by apply list_compare_refl.
  - intros. by apply list_compare_antisym.
  - intros. by eapply list_compare_trans.
Qed.

Lemma Ascii_compare_ok : compare_ok Ascii.compare.
Proof.
  split.
  - intros x y. split; [apply Ascii.compare_eq_iff|]. intros ->.
    unfold Ascii.compare. apply N.compare_refl.
  - intros x y. apply Ascii.compare_antisym.
  - intros x y z c. unfold Ascii.compare.
    destruct c.
    + rewrite !N.compare_eq_iff. congruence.
    + rewrite !N.compare_lt_iff. lia.
    + rewrite !N.compare_gt_iff. lia.
Qed.

Lemma str_compare_ok : compare_ok str_compare.
Proof.
  pose proof (list_compare_ok _ Ascii_compare_ok) as [Heq Hopp Htrans].
  unfold str_compare. split.
  - intros x y. rewrite Heq. split; [|by intros ->].
    intros Hl. rewrite <-(string_of_list_ascii_of_string x), Hl.
    apply string_of_list_ascii_of_string.
  - intros. apply Hopp.
  - intros. by eapply Htrans.
Qed.

Lemma AssetKey_compare_ok : compare_ok AssetKey_compare.
Proof. apply list_compare_ok, str_compare_ok. Qed.

Lemma key_list_compare_ok : compare_ok key_list_compare.
Proof. apply list_compare_ok, AssetKey_compare_ok. Qed.

Section le_of_compare.
Context {A} (cmp : A → A → comparison) (Hcmp : compare_ok cmp).
Let le (x y : A) : Prop := cmp x y ≠ Gt.

Lemma le_of_compare_total x y : le x y ∨ le y x.
Proof using Hcmp.
  unfold le. rewrite (cmp_opp _ Hcmp x y). destruct (cmp x y); simpl; auto.
Qed.

Lemma le_of_compare_antisym x y : le x y → le y x → x = y.
Proof using Hcmp.
  unfold le. rewrite (cmp_opp _ Hcmp x y).
  destruct (cmp x y) eqn:Hxy; simpl; try done.
  intros. by apply (cmp_eq _ Hcmp).
Qed.

Lemma le_of_compare_trans x y z : le x y → le y z → le x z.
Proof using Hcmp.
  unfold le. destruct (cmp x y) eqn:Hxy; [| |done].
  - apply (cmp_eq _ Hcmp) in Hxy as ->. done.
  - destruct (cmp y z) eqn:Hyz; [| |done].
    + apply (cmp_eq _ Hcmp) in Hyz as ->. by rewrite Hxy.
    + by rewrite (cmp_trans _ Hcmp x y z Lt Hxy Hyz).
Qed.
End le_of_compare.

Global Instance AssetKey_le_total : Total AssetKey_le.
Proof. intros x y. apply le_of_compare_total, AssetKey_compare_ok. Qed.
Global Instance AssetKey_le_antisym : AntiSymm (=) AssetKey_le.
Proof. intros x y. apply le_of_compare_antisym, AssetKey_compare_ok. Qed.
Global Instance AssetKey_le_trans : Transitive AssetKey_le.
Proof. intros x y z. apply le_of_compare_trans, AssetKey_compare_ok. Qed.
Global Instance key_list_le_total : Total key_list_le.
Proof. intros x y. apply le_of_compare_total, key_list_compare_ok. Qed.
Global Instance key_list_le_antisym : AntiSymm (=) key_list_le.
Proof. intros x y. apply le_of_compare_antisym, key_list_compare_ok. Qed.
Global Instance key_list_le_trans : Transitive key_list_le.
Proof. intros x y z. apply le_of_compare_trans, key_list_compare_ok. Qed.

(** ** [sorted] *)

Section sorted_facts.
Context {A B : Type} (le : relation B) `{!RelDecision le} (f : A → B).
Let R (x y : A) : Prop := le (f x) (f y).

Lemma sorted_insert_Permutation x l : sorted_insert le f x l ≡ₚ x :: l.
Proof.
  induction l as [|y l IH]; simpl; [done|].
  case_decide; [done|]. rewrite IH. apply Permutation_swap.
Qed.

Lemma sorted_Permutation l : sorted le f l ≡ₚ l.
Proof.
  induction l as [|x l IH]; simpl; [done|].
  by rewrite sorted_insert_Permutation, IH.
Qed.

Lemma sorted_insert_Sorted `{!Total le} x l :
  Sorted R l → Sorted R (sorted_insert le f x l).
Proof.
  induction 1 as [|y l Hl IH Hhd]; simpl; [by repeat constructor|].
  case_decide as Hxy.
  - constructor; [by constructor|]. by constructor.
  - constructor; [done|].
    destruct Hhd as [|z l Hyz]; simpl.
    + constructor. unfold R. by destruct (total le (f x) (f y)).
    + case_decide; constructor; [|done]. unfold R. by destruct (total le (f x) (f y)).
Qed.

Lemma sorted_Sorted `{!Total le} l : Sorted R (sorted le f l).
Proof. induction l; simpl; [constructor|by apply sorted_insert_Sorted]. Qed.

Lemma sorted_insert_le_all x l :
  Forall (R x) l → sorted_insert le f x l = x :: l.
Proof. destruct 1; simpl; [done|]. by rewrite decide_True. Qed.

Global Instance sorted_R_trans `{!Transitive le} : Transitive R.
Proof. intros x y z. unfold R. apply transitivity. Qed.

(** The sort is stable: it commutes with filtering. *)
Lemma sorted_insert_filter `{!Transitive le}
    (P : A → Prop) `{!∀ x, Decision (P x)} x l :
  StronglySorted R l →
  filter P (sorted_insert le f x l)
  = if decide (P x) then sorted_insert le f x (filter P l) else filter P l.
Proof.
  induction 1 as [|y l Hl IH Hall]; simpl.
  { rewrite filter_cons, filter_nil. by destruct (decide (P x)). }
  destruct (decide (le (f x) (f y))) as [Hxy|Hxy].
  - rewrite !filter_cons. destruct (decide (P x)), (decide (P y)); simpl; try done.
    + by rewrite decide_True.
    + symmetry. apply sorted_insert_le_all.
      apply Forall_forall. intros z Hz%list_elem_of_filter.
      destruct Hz as [_ Hz]. rewrite Forall_forall in Hall.
      by trans y; [|apply Hall].
  - rewrite !filter_cons, IH. destruct (decide (P x)), (decide (P y)); simpl; try done.
    by rewrite decide_False.
Qed.

Lemma sorted_StronglySorted `{!Transitive le, !Total le} l :
  StronglySorted R (sorted le f l).
Proof. apply Sorted_StronglySorted; [apply _|apply sorted_Sorted]. Qed.

Lemma sorted_filter `{!Transitive le, !Total le}
    (P : A → Prop) `{!∀ x, Decision (P x)} l :
  filter P (sorted le f l) = sorted le f (filter P l).
Proof.
  induction l as [|x l IH]; simpl; [done|].
  rewrite sorted_insert_filter by apply sorted_StronglySorted.
  rewrite filter_cons. case_decide; simpl; by rewrite IH.
Qed.

(** Lists with the same elements, no two of them with the same key, sort to
    the same list. *)
Lemma sorted_unique `{!Transitive le, !Total le, !AntiSymm (=) le} l1 l2 :
  l1 ≡ₚ l2 →
  (∀ x y, x ∈ l1 → y ∈ l1 → f x = f y → x = y) →
  sorted le f l1 = sorted le f l2.
Proof.
  intros Hperm Hinj.
  apply (StronglySorted_unique_strong R); try apply sorted_StronglySorted.
  - intros x1 x2 Hx1 Hx2 H12 H21.
    rewrite sorted_Permutation in Hx1, Hx2. rewrite <-Hperm in Hx2.
    apply Hinj; [done..|]. by apply (anti_symm le).
  - by rewrite !sorted_Permutation.
Qed.
End sorted_facts.

(** ** Queries on check keys *)

(** C10. For a check key with no definition bound in the graph's
    check-key-to-definition mapping, [get_spec_for_asset_check] returns [None]
    and does not raise, while [get_execution_set_asset_and_check_keys] on the
    same key raises [KeyError]. *)
Theorem unbound_check_key_queries {env : Collaborators}
    (g : AssetGraph.t) (check_key : AssetCheckKey) :
  AssetGraph._assets_defs_by_check_key g !! check_key = None →
  AssetGraph.get_spec_for_asset_check g check_key = Ok None ∧
  AssetGraph.get_execution_set_asset_and_check_keys g (inr check_key) = Raise KeyError.
Proof.
  intros Hunbound. split.
  - unfold AssetGraph.get_spec_for_asset_check. by rewrite Hunbound.
  - unfold AssetGraph.get_execution_set_asset_and_check_keys.
    by rewrite (subscript_KeyError _ _ Hunbound).
Qed.

Lemma unbound_check_key_queries_witness :
  let g := ScenarioGraphs.alias_collision_graph in
  let check_key := mkAssetCheckKey ["b"] "c2" in
  AssetGraph._assets_defs_by_check_key g !! check_key = None ∧
  AssetGraph.get_spec_for_asset_check (env := Scenario.collaborators) g check_key = Ok None ∧
  AssetGraph.get_execution_set_asset_and_check_keys g (inr check_key) = Raise KeyError.
Proof.
  intros g check_key.
  assert (AssetGraph._assets_defs_by_check_key g !! check_key = None) as Hunbound
    by (vm_compute; reflexivity).
  split; [exact Hunbound|].
  exact (unbound_check_key_queries (env := Scenario.collaborators) g check_key Hunbound).
Defined.

(** ** Resolving an outer output to its destinations *)

Lemma node_named_elem_of nodes name n :
  node_named nodes name = Ok n → n ∈ nodes ∧ n.1 = name.
Proof.
  induction nodes as [|n' nodes IH]; simpl; [done|].
  case_decide as Hn.
  - intros [= ->]. split; [left|done].
  - intros Hfind. destruct (IH Hfind). split; [by right|done].
Qed.

Lemma node_named_raises nodes name e :
  node_named nodes name = Raise e → e = InvariantViolation.
Proof.
  induction nodes as [|n' nodes IH]; simpl; [congruence|].
  case_decide; [done|exact IH].
Qed.

Lemma output_def_named_raises d name e :
  output_def_named d name = Raise e → e = InvariantViolation.
Proof. unfold output_def_named. case_decide; congruence. Qed.

Lemma nesting_depth_node name nodes ds mappings n :
  n ∈ nodes → nesting_depth n.2 < nesting_depth (GraphDefinition name nodes ds mappings).
Proof.
  simpl. induction nodes as [|n' nodes IH]; intros Hin; [by apply elem_of_nil in Hin|].
  apply elem_of_cons in Hin as [->|Hin]; [lia|].
  specialize (IH Hin). lia.
Qed.

Lemma well_wired_node name nodes ds mappings n :
  well_wired (GraphDefinition name nodes ds mappings) → n ∈ nodes → well_wired n.2.
Proof.
  simpl. intros [_ Hnodes]. induction nodes as [|n' nodes IH]; intros Hin;
    [by apply elem_of_nil in Hin|].
  destruct Hnodes as [Hn' Hnodes].
  apply elem_of_cons in Hin as [->|Hin]; [done|by apply IH].
Qed.

Section resolve_mappings_facts.
Context (output_name : string) (nodes : list (string * NodeDefinition))
        (ds : DependencyStructure) (handle : NodeHandle).

Lemma resolve_mappings_ext recur1 recur2 mappings acc :
  (∀ o n h, n ∈ nodes → recur1 o n.2 h = recur2 o n.2 h) →
  resolve_mappings recur1 output_name nodes ds handle mappings acc
  = resolve_mappings recur2 output_name nodes ds handle mappings acc.
Proof.
  intros Hext. revert acc.
  induction mappings as [|m mappings IH]; intros acc; simpl; [done|].
  case_decide; [apply IH|].
  destruct (node_named nodes (op_node_name (maps_from m))) as [n|e] eqn:Hn; simpl; [|done].
  apply node_named_elem_of in Hn as [Hn _].
  rewrite (Hext _ _ _ Hn).
  destruct (recur2 _ _ _); simpl; [|done].
  destruct (output_def_named _ _); simpl; [|done].
  apply IH.
Qed.

Lemma resolve_mappings_no_RecursionError recur mappings acc :
  (∀ o n h, n ∈ nodes → recur o n.2 h ≠ Raise RecursionError) →
  resolve_mappings recur output_name nodes ds handle mappings acc ≠ Raise RecursionError.
Proof.
  intros Hrecur. revert acc.
  induction mappings as [|m mappings IH]; intros acc; simpl; [done|].
  case_decide; [apply IH|].
  destruct (node_named nodes (op_node_name (maps_from m))) as [n|e] eqn:Hn; simpl.
  - apply node_named_elem_of in Hn as [Hn _].
    destruct (recur _ n.2 _) as [inner|e] eqn:Hinner; simpl.
    + destruct (output_def_named _ _) as [od|e] eqn:Hod; simpl; [apply IH|].
      apply output_def_named_raises in Hod as ->. done.
    + intros [= ->]. by eapply Hrecur.
  - apply node_named_raises in Hn as ->. done.
Qed.

Lemma resolve_mappings_Ok recur mappings acc :
  Forall (λ m, ∃ n, node_named nodes (op_node_name (maps_from m)) = Ok n ∧
                    op_output_name (maps_from m) ∈ output_def_names n.2) mappings →
  (∀ o n h, n ∈ nodes → ∃ l, recur o n.2 h = Ok l) →
  ∃ l, resolve_mappings recur output_name nodes ds handle mappings acc = Ok l.
Proof.
  intros Hwired Hrecur. revert acc.
  induction Hwired as [|m mappings (n & Hn & Hout) _ IH]; intros acc; simpl; [eauto|].
  case_decide; [apply IH|].
  rewrite Hn. simpl.
  destruct (Hrecur (op_output_name (maps_from m)) n
              (mkNodeHandle (op_node_name (maps_from m)) (Some handle))) as [inner ->].
  { by apply node_named_elem_of in Hn as [? _]. }
  simpl. unfold output_def_named. rewrite decide_True by done. simpl. apply IH.
Qed.

Lemma resolve_mappings_elem_of recur mappings acc l :
  (∀ o n h inner, n ∈ nodes → recur o n.2 h = Ok inner →
     ∀ x, x ∈ inner ↔ destination o n.2 h x) →
  resolve_mappings recur output_name nodes ds handle mappings acc = Ok l →
  ∀ x, x ∈ l ↔
    x ∈ acc ∨
    ∃ mapping, mapping ∈ mappings ∧ graph_output_name mapping = output_name ∧
      ((∃ output_node,
          node_named nodes (op_node_name (maps_from mapping)) = Ok output_node ∧
          destination (op_output_name (maps_from mapping)) output_node.2
            (mkNodeHandle (op_node_name (maps_from mapping)) (Some handle)) x)
       ∨ x ∈ sibling_inputs ds handle mapping).
Proof.
  intros Hrecur. revert acc.
  induction mappings as [|m mappings IH]; intros acc; simpl.
  { intros [= <-] x. split; [by left|]. intros [?|(? & Hin & _)]; [done|].
    by apply elem_of_nil in Hin. }
  case_decide as Hname.
  - intros Hrun x. rewrite (IH _ Hrun). split.
    + intros [?|(m' & ? & ?)]; [by left|]. right. exists m'. split; [by right|done].
    + intros [?|(m' & Hin & Hm' & Hx)]; [by left|].
      apply elem_of_cons in Hin as [->|Hin]; [done|]. right. eauto.
  -
    destruct (node_named nodes (op_node_name (maps_from m))) as [n|e] eqn:Hn; simpl; [|done].
    destruct (recur _ n.2 _) as [inner|e] eqn:Hinner; simpl; [|done].
    destruct (output_def_named _ _) as [od|e] eqn:Hod; simpl; [|done].
    assert (od = op_output_name (maps_from m)) as ->.
    { unfold output_def_named in Hod. case_decide; congruence. }
    pose proof (Hn' := Hn). apply node_named_elem_of in Hn' as [Hn' _].
    specialize (Hrecur _ _ _ _ Hn' Hinner).
    intros Hrun x. rewrite (IH _ Hrun). rewrite !elem_of_app, Hrecur.
    fold (sibling_inputs ds handle m). split.
    + intros [[?|[?|?]]|(m' & ? & ?)].
      * by left.
      * right. exists m. split; [left|]. split; [done|]. left. eauto.
      * right. exists m. split; [left|]. split; [done|]. by right.
      * right. exists m'. split; [by right|done].
    + intros [?|(m' & Hin & Hm' & Hx)]; [by left; left|].
      apply elem_of_cons in Hin as [->|Hin]; [|right; eauto].
      left. right. destruct Hx as [(n'' & Hn'' & Hd)|?]; [|by right].
      left. rewrite Hn in Hn''. by injection Hn'' as <-.
Qed.
End resolve_mappings_facts.

Lemma resolve_no_RecursionError calls output_name node_def handle :
  nesting_depth node_def < calls →
  _resolve_output_to_destinations calls output_name node_def handle ≠ Raise RecursionError.
Proof.
  revert output_name node_def handle.
  induction calls as [|calls IH]; intros o d h Hdepth; [lia|].
  destruct d as [name outs|name nodes ds mappings]; [done|].
  cbn [_resolve_output_to_destinations].
  apply resolve_mappings_no_RecursionError. intros o' n h' Hn. apply IH.
  pose proof (nesting_depth_node name nodes ds mappings n Hn). lia.
Qed.

Lemma resolve_calls_irrelevant calls1 calls2 output_name node_def handle :
  nesting_depth node_def < calls1 → nesting_depth node_def < calls2 →
  _resolve_output_to_destinations calls1 output_name node_def handle
  = _resolve_output_to_destinations calls2 output_name node_def handle.
Proof.
  revert calls2 output_name node_def handle.
  induction calls1 as [|calls1 IH]; intros calls2 o d h H1 H2; [lia|].
  destruct calls2 as [|calls2]; [lia|].
  destruct d as [name outs|name nodes ds mappings]; [done|].
  cbn [_resolve_output_to_destinations].
  apply resolve_mappings_ext. intros o' n h' Hn.
  pose proof (nesting_depth_node name nodes ds mappings n Hn).
  apply IH; lia.
Qed.

Lemma resolve_well_wired calls output_name node_def handle :
  nesting_depth node_def < calls → well_wired node_def →
  ∃ l, _resolve_output_to_destinations calls output_name node_def handle = Ok l.
Proof.
  revert output_name node_def handle.
  induction calls as [|calls IH]; intros o d h Hdepth Hwired; [lia|].
  destruct d as [name outs|name nodes ds mappings]; [by eexists|].
  cbn [_resolve_output_to_destinations].
  apply resolve_mappings_Ok; [apply Hwired|].
  intros o' n h' Hn. apply IH.
  - pose proof (nesting_depth_node name nodes ds mappings n Hn). lia.
  - by eapply well_wired_node.
Qed.

Lemma resolve_destinations calls output_name node_def handle l :
  _resolve_output_to_destinations calls output_name node_def handle = Ok l →
  ∀ x, x ∈ l ↔ destination output_name node_def handle x.
Proof.
  revert output_name node_def handle l.
  induction calls as [|calls IH]; intros o d h l; [done|].
  destruct d as [name outs|name nodes ds mappings].
  - intros [= <-] x. split; [by intros ?%elem_of_nil|]. inversion 1.
  - cbn [_resolve_output_to_destinations]. intros Hrun x.
    rewrite (resolve_mappings_elem_of _ _ _ _ _ _ _ _
               (λ o' n h' inner _ Hinner, IH o' n.2 h' inner Hinner) Hrun).
    split.
    + intros [?%elem_of_nil|(m & Hm & Hname & [(n & Hn & Hd)|Hsib])]; [done| |].
      * by eapply destination_inner.
      * unfold sibling_inputs in Hsib. apply list_elem_of_fmap in Hsib as (input & -> & Hin).
        by eapply destination_sibling.
    + inversion 1; subst; right; exists mapping; (split; [done|]); (split; [done|]).
      * left. eauto.
      * right. unfold sibling_inputs. apply list_elem_of_fmap. eauto.
Qed.

(** C9, as the code has it. [_resolve_output_to_destinations] terminates on
    every nesting of graph definitions: one nested call more than the nesting
    depth of the subgraphs is enough, whatever the number of mappings and
    edges, and allowing more calls changes nothing. On a graph whose output
    mappings all name a node and an output it returns a sequence, and what it
    returns holds exactly the input handles reachable from that output
    through the output mappings: the destinations inside the mapped node and
    the inputs of the nodes wired to the mapped output, which may be
    subgraphs as well as leaf steps. *)
Theorem resolve_output_to_destinations_terminates
    (calls : nat) (output_name : string) (node_def : NodeDefinition) (handle : NodeHandle) :
  nesting_depth node_def < calls →
  _resolve_output_to_destinations calls output_name node_def handle ≠ Raise RecursionError ∧
  _resolve_output_to_destinations calls output_name node_def handle
    = _resolve_output_to_destinations (S (nesting_depth node_def)) output_name node_def handle ∧
  (well_wired node_def →
   ∃ l, _resolve_output_to_destinations calls output_name node_def handle = Ok l) ∧
  (∀ l, _resolve_output_to_destinations calls output_name node_def handle = Ok l →
        ∀ x, x ∈ l ↔ destination output_name node_def handle x).
Proof.
  intros Hdepth. split; [by apply resolve_no_RecursionError|].
  split; [apply resolve_calls_irrelevant; lia|].
  split; [by apply resolve_well_wired|].
  intros l. apply resolve_destinations.
Qed.

Lemma resolve_output_to_destinations_terminates_witness :
  nesting_depth Scenario.outer < 3 ∧
  _resolve_output_to_destinations 3 "out" Scenario.outer Scenario.outer_handle
    ≠ Raise RecursionError.
Proof.
  assert (nesting_depth Scenario.outer < 3) as Hdepth by (vm_compute; lia).
  split; [exact Hdepth|].
  exact (proj1 (resolve_output_to_destinations_terminates
                  3 "out" Scenario.outer Scenario.outer_handle Hdepth)).
Defined.

(** C9, as the claim states it, fails on the returned handles: the output [out]
    of [outer] is resolved to the input [x] of the node [H], and [H] is a
    subgraph, not a leaf step. *)
Lemma resolve_output_to_destinations_not_leaf_level :
  let h := mkNodeHandle "H" (Some Scenario.outer_handle) in
  well_wired Scenario.outer ∧
  _resolve_output_to_destinations 3 "out" Scenario.outer Scenario.outer_handle
    = Ok [mkNodeInputHandle h "x"] ∧
  definition_at Scenario.outer Scenario.outer_handle h = Some Scenario.subgraph_H ∧
  is_leaf Scenario.subgraph_H = false.
Proof.
  split.
  - simpl. split; [|done].
    constructor; [|constructor]. eexists. split; [reflexivity|]. simpl. set_solver.
  - split; [vm_compute; reflexivity|]. split; vm_compute; reflexivity.
Qed.

(** ** Node aliases *)

Lemma dict_get_set {V} (d : list (string * V)) (k : string) (v : V) :
  dict_get (dict_set d k v) k = Some v.
Proof.
  induction d as [|kv d IH]; simpl.
  - by rewrite decide_True.
  - destruct (decide (kv.1 = k)); simpl.
    + by rewrite decide_True.
    + by rewrite decide_False.
Qed.

Lemma occurrences_snoc node_name l ad :
  occurrences node_name (l ++ [ad])
  = occurrences node_name l
    + (if decide (node_def_name (AssetsDefinition.node_def ad) = node_name) then 1 else 0).
Proof.
  unfold occurrences. rewrite filter_app, length_app, filter_cons, filter_nil.
  by case_decide.
Qed.

(** [collisions] after the loop has visited [l]: the number of definitions seen
    for each node name that was seen at all. *)
Lemma collisions_after (l : list AssetsDefinition.t) (node_name : string) :
  (foldl AssetGraph.op_node_names_step (∅, []) l).1 !! node_name
  = if decide (occurrences node_name l = 0) then None
    else Some (occurrences node_name l).
Proof.
  induction l as [|ad l IH] using rev_ind; [done|].
  rewrite foldl_app, occurrences_snoc. simpl.
  set (st := foldl AssetGraph.op_node_names_step (∅, []) l) in *.
  set (name := node_def_name (AssetsDefinition.node_def ad)).
  destruct (decide (name = node_name)) as [Heq|Hne].
  - subst node_name. rewrite IH. destruct (occurrences name l) as [|n] eqn:Hocc; simpl.
    + by rewrite lookup_insert_eq.
    + rewrite lookup_insert_eq. f_equal. lia.
  - rewrite Nat.add_0_r.
    destruct (st.1 !! name) as [[|n]|]; by rewrite lookup_insert_ne.
Qed.



(** * Graph construction *)

(** ** Loops that may raise *)

Lemma for_map_Ok_inv {A B} (body : A → result B) l l' :
  for_map body l = Ok l' → Forall2 (λ x y, body x = Ok y) l l'.
Proof.
  revert l'. induction l as [|x l IH]; intros l'; simpl.
  - intros [= <-]. constructor.
  - destruct (body x) as [y|e] eqn:Hx; simpl; [|done].
    destruct (for_map body l) as [ys|e]; simpl; [|done].
    intros [= <-]. constructor; [done|by apply IH].
Qed.

Lemma for_map_Ok {A B} (body : A → result B) l l' :
  Forall2 (λ x y, body x = Ok y) l l' → for_map body l = Ok l'.
Proof. induction 1 as [|x y l l' Hx _ IH]; simpl; [done|]. by rewrite Hx, IH. Qed.

Lemma for_map_ext {A B} (body1 body2 : A → result B) l :
  (∀ x, x ∈ l → body1 x = body2 x) → for_map body1 l = for_map body2 l.
Proof.
  induction l as [|x l IH]; intros Hext; simpl; [done|].
  rewrite Hext by left. rewrite IH; [done|]. intros. apply Hext. by right.
Qed.

(** A comprehension over a reordered list succeeds when the original does, with
    the results reordered the same way. *)
Lemma for_map_Permutation {A B} (body : A → result B) l1 l2 l1' :
  l1 ≡ₚ l2 → for_map body l1 = Ok l1' →
  ∃ l2', for_map body l2 = Ok l2' ∧ l1' ≡ₚ l2'.
Proof.
  intros Hperm. revert l1'.
  induction Hperm as [|x l1 l2 _ IH|x y l|l1 l2 l3 _ IH1 _ IH2]; intros l1'; simpl.
  - intros [= <-]. by exists [].
  - destruct (body x) as [x'|e]; simpl; [|done].
    destruct (for_map body l1) as [r1|e]; simpl; [|done].
    intros [= <-]. destruct (IH r1 eq_refl) as (r2 & -> & Hr). simpl.
    exists (x' :: r2). split; [done|]. by constructor.
  - destruct (body y) as [y'|e]; simpl; [|done].
    destruct (body x) as [x'|e]; simpl; [|done].
    destruct (for_map body l) as [r|e]; simpl; [|done].
    intros [= <-]. exists (x' :: y' :: r). split; [done|]. constructor.
  - intros H1. destruct (IH1 _ H1) as (l2' & H2 & Hp12).
    destruct (IH2 _ H2) as (l3' & H3 & Hp23).
    exists l3'. split; [done|]. by etrans.
Qed.

(** ** The dependency graph *)

Lemma elem_of_all_asset_keys assets_defs k :
  k ∈ all_asset_keys assets_defs ↔ ∃ ad, ad ∈ assets_defs ∧ k ∈ AssetsDefinition.keys ad.
Proof.
  unfold all_asset_keys. rewrite elem_of_union_list. split.
  - intros (X & HX & Hk). apply list_elem_of_fmap in HX as (ad & -> & Had). eauto.
  - intros (ad & Had & Hk). exists (AssetsDefinition.keys ad).
    split; [|done]. apply list_elem_of_fmap. eauto.
Qed.

Lemma elem_of_declared_parents assets_defs k p :
  p ∈ declared_parents assets_defs k ↔
  ∃ ad deps, ad ∈ assets_defs ∧ k ∈ AssetsDefinition.keys ad ∧
             AssetsDefinition.asset_deps ad !! k = Some deps ∧ p ∈ deps.
Proof.
  unfold declared_parents. rewrite elem_of_union_list. split.
  - intros (X & HX & Hp). apply list_elem_of_fmap in HX as (ad & -> & Had).
    case_decide as Hk; [|by apply not_elem_of_empty in Hp].
    destruct (AssetsDefinition.asset_deps ad !! k) as [deps|] eqn:Hdeps; simpl in Hp;
      [|by apply not_elem_of_empty in Hp].
    eauto 10.
  - intros (ad & deps & Had & Hk & Hdeps & Hp).
    eexists. split; [apply list_elem_of_fmap; eauto|].
    rewrite decide_True by done. by rewrite Hdeps.
Qed.

Lemma elem_of_dependency_keys ad p :
  p ∈ AssetsDefinition.dependency_keys ad ↔
  ∃ k deps, k ∈ AssetsDefinition.keys ad ∧
            AssetsDefinition.asset_deps ad !! k = Some deps ∧ p ∈ deps.
Proof.
  unfold AssetsDefinition.dependency_keys. rewrite elem_of_union_list. split.
  - intros (X & HX & Hp). apply list_elem_of_fmap in HX as (k & -> & Hk).
    apply elem_of_elements in Hk.
    destruct (AssetsDefinition.asset_deps ad !! k) as [deps|] eqn:Hdeps; simpl in Hp;
      [|by apply not_elem_of_empty in Hp].
    eauto.
  - intros (k & deps & Hk & Hdeps & Hp).
    eexists. split; [apply list_elem_of_fmap; exists k; split; [done|]|].
    + by apply elem_of_elements.
    + by rewrite Hdeps.
Qed.

Lemma declared_parents_referenced assets_defs k p :
  p ∈ declared_parents assets_defs k →
  ∃ ad, ad ∈ assets_defs ∧ p ∈ AssetsDefinition.dependency_keys ad.
Proof.
  intros (ad & deps & Had & Hk & Hdeps & Hp)%elem_of_declared_parents.
  exists ad. split; [done|]. apply elem_of_dependency_keys. eauto.
Qed.

Lemma upstream_lookup assets_defs k s :
  upstream (generate_asset_dep_graph assets_defs) !! k = Some s ↔
  k ∈ all_asset_keys assets_defs ∧ s = declared_parents assets_defs k.
Proof.
  unfold generate_asset_dep_graph; simpl.
  rewrite lookup_set_to_map by (by intros ?? _ _ [= ->]).
  split.
  - by intros (k' & Hk & [= -> ->]).
  - intros [Hk ->]. eauto.
Qed.

Lemma downstream_lookup assets_defs k s :
  downstream (generate_asset_dep_graph assets_defs) !! k = Some s ↔
  k ∈ all_asset_keys assets_defs ∪ ⋃ (AssetsDefinition.dependency_keys <$> assets_defs) ∧
  s = filter (λ c, k ∈ declared_parents assets_defs c) (all_asset_keys assets_defs).
Proof.
  unfold generate_asset_dep_graph; simpl.
  rewrite lookup_set_to_map by (by intros ?? _ _ [= ->]).
  split.
  - by intros (k' & Hk & [= -> ->]).
  - intros [Hk ->]. eauto.
Qed.

Lemma generate_asset_dep_graph_Permutation l1 l2 :
  l1 ≡ₚ l2 → generate_asset_dep_graph l1 = generate_asset_dep_graph l2.
Proof.
  intros Hperm.
  assert (all_asset_keys l1 = all_asset_keys l2) as Hkeys.
  { apply set_eq. intros k. rewrite !elem_of_all_asset_keys. by setoid_rewrite Hperm. }
  assert (∀ k, declared_parents l1 k = declared_parents l2 k) as Hparents.
  { intros k. apply set_eq. intros p. rewrite !elem_of_declared_parents.
    by setoid_rewrite Hperm. }
  assert (⋃ (AssetsDefinition.dependency_keys <$> l1)
          = ⋃ (AssetsDefinition.dependency_keys <$> l2) :> gset AssetKey) as Hrefs.
  { apply set_eq. intros k. rewrite !elem_of_union_list.
    by setoid_rewrite Hperm. }
  unfold generate_asset_dep_graph. rewrite Hkeys, Hrefs. f_equal.
  - unfold set_to_map. f_equal. apply list_fmap_ext. intros _ k _. by rewrite Hparents.
  - unfold set_to_map. f_equal. apply list_fmap_ext. intros _ k _. f_equal.
    apply set_eq. intros c. rewrite !elem_of_filter. by rewrite Hparents.
Qed.

(** ** Nodes *)

Section nodes.
Context {env : Collaborators}.

Lemma elem_of_defs_and_keys assets_defs ad k :
  (ad, k) ∈ AssetGraph.defs_and_keys assets_defs ↔
  ad ∈ assets_defs ∧ k ∈ AssetsDefinition.keys ad.
Proof.
  unfold AssetGraph.defs_and_keys. rewrite list_elem_of_bind. split.
  - intros (ad' & Hin & Had'). apply list_elem_of_fmap in Hin as (k' & [= -> ->] & Hk).
    by apply elem_of_elements in Hk.
  - intros [Had Hk]. exists ad. split; [|done].
    apply list_elem_of_fmap. exists k. split; [done|]. by apply elem_of_elements.
Qed.

Section add_asset_node.
Context (dep_graph : DependencyGraph) (checks : gmap AssetKey (gset AssetCheckKey)).

Lemma add_asset_node_Ok acc item m :
  AssetGraph.add_asset_node dep_graph checks acc item = Ok m ↔
  ∃ n, node_built dep_graph checks item.1 item.2 n ∧ m = <[item.2 := n]> acc.
Proof.
  unfold AssetGraph.add_asset_node, node_built, subscript.
  destruct (upstream dep_graph !! item.2) as [parents|]; simpl.
  - destruct (downstream dep_graph !! item.2) as [children|]; simpl.
    + split.
      * intros [= <-]. eauto 10.
      * by intros (n & (p & c & [= <-] & [= <-] & ->) & ->).
    + split; [done|]. by intros (n & (p & c & _ & ? & _) & _).
  - split; [done|]. by intros (n & (p & c & ? & _) & _).
Qed.

Lemma asset_nodes_lookup l acc m k n :
  for_fold (AssetGraph.add_asset_node dep_graph checks) acc l = Ok m →
  m !! k = Some n →
  acc !! k = Some n ∨ ∃ ad, (ad, k) ∈ l ∧ node_built dep_graph checks ad k n.
Proof.
  revert acc. induction l as [|item l IH]; intros acc; simpl.
  - intros [= <-]. by left.
  - destruct (AssetGraph.add_asset_node dep_graph checks acc item) as [acc'|e] eqn:Hstep;
      simpl; [|done].
    apply add_asset_node_Ok in Hstep as (n' & Hbuilt & ->).
    intros Hrun Hlookup. destruct (IH _ Hrun Hlookup) as [Hacc|(ad & Hin & Hn)].
    + destruct (decide (item.2 = k)) as [<-|Hne].
      * rewrite lookup_insert_eq in Hacc. injection Hacc as <-.
        right. exists item.1. split; [|done]. destruct item. left.
      * rewrite lookup_insert_ne in Hacc by done. by left.
    + right. exists ad. split; [by right|done].
Qed.

Lemma asset_nodes_dom l acc m k :
  for_fold (AssetGraph.add_asset_node dep_graph checks) acc l = Ok m →
  is_Some (m !! k) ↔ is_Some (acc !! k) ∨ ∃ ad, (ad, k) ∈ l.
Proof.
  revert acc. induction l as [|item l IH]; intros acc; simpl.
  - intros [= <-]. split; [by left|]. intros [?|(? & Hin)]; [done|].
    by apply elem_of_nil in Hin.
  - destruct (AssetGraph.add_asset_node dep_graph checks acc item) as [acc'|e] eqn:Hstep;
      simpl; [|done].
    apply add_asset_node_Ok in Hstep as (n' & Hbuilt & ->).
    intros Hrun. rewrite (IH _ Hrun). rewrite lookup_insert_is_Some. split.
    + intros [[<-|[_ ?]]|(ad & Hin)].
      * right. exists item.1. destruct item. left.
      * by left.
      * right. exists ad. by right.
    + intros [?|(ad & Hin)].
      * destruct (decide (item.2 = k)); [left; by left|]. left. by right.
      * apply elem_of_cons in Hin as [<-|Hin]; [left; by left|]. right. eauto.
Qed.

Lemma asset_nodes_Ok l acc :
  (∀ ad k, (ad, k) ∈ l →
     is_Some (upstream dep_graph !! k) ∧ is_Some (downstream dep_graph !! k)) →
  ∃ m, for_fold (AssetGraph.add_asset_node dep_graph checks) acc l = Ok m.
Proof.
  revert acc. induction l as [|item l IH]; intros acc Hl; simpl; [eauto|].
  destruct (Hl item.1 item.2) as [[parents Hp] [children Hc]].
  { destruct item. left. }
  destruct (AssetGraph.add_asset_node dep_graph checks acc item) as [acc'|e] eqn:Hstep;
    simpl.
  - apply IH. intros ad k Hin. apply (Hl ad). by right.
  - unfold AssetGraph.add_asset_node, subscript in Hstep. by rewrite Hp, Hc in Hstep.
Qed.
End add_asset_node.

(** ** The check keys of each asset *)

Lemma add_check_keys_elem_of ad cks acc k ck :
  ck ∈ default ∅ ((foldl (AssetGraph.add_check_key ad) acc cks).2 !! k) ↔
  ck ∈ default ∅ (acc.2 !! k) ∨ (ck ∈ cks ∧ ck_asset_key ck = k).
Proof.
  revert acc. induction cks as [|ck' cks IH]; intros acc; simpl.
  - split; [by left|]. intros [?|[Hin _]]; [done|]. by apply elem_of_nil in Hin.
  - rewrite IH. unfold AssetGraph.add_check_key; simpl.
    destruct (decide (ck_asset_key ck' = k)) as [<-|Hne].
    + rewrite lookup_insert_eq; simpl. rewrite elem_of_union, elem_of_singleton.
      rewrite elem_of_cons. split.
      * intros [[? | ->]|[? ?]]; [by left|right|right]; split; auto.
      * intros [?|[[-> | ?] ?]]; [left; by left|left; by right|by right].
    + rewrite lookup_insert_ne by done. rewrite elem_of_cons. split.
      * intros [?|[? ?]]; [by left|]. right. split; auto.
      * intros [?|[[-> | ?] ?]]; [by left|done|by right].
Qed.

Lemma bind_check_keys_elem_of assets_defs k ck :
  ck ∈ default ∅ ((AssetGraph.bind_check_keys assets_defs).2 !! k) ↔
  ck_asset_key ck = k ∧ ∃ ad, ad ∈ assets_defs ∧ ck ∈ AssetsDefinition.check_keys ad.
Proof.
  unfold AssetGraph.bind_check_keys.
  assert (∀ acc,
    ck ∈ default ∅ ((foldl (λ acc ad, foldl (AssetGraph.add_check_key ad) acc
                                        (elements (AssetsDefinition.check_keys ad)))
                           acc assets_defs).2 !! k) ↔
    ck ∈ default ∅ (acc.2 !! k) ∨
    (ck_asset_key ck = k ∧ ∃ ad, ad ∈ assets_defs ∧ ck ∈ AssetsDefinition.check_keys ad))
    as Hgen.
  { induction assets_defs as [|ad l IH]; intros acc; simpl.
    - split; [by left|]. intros [?|[_ (? & Hin & _)]]; [done|].
      by apply elem_of_nil in Hin.
    - rewrite IH, add_check_keys_elem_of, elem_of_elements. split.
      + intros [[?|[? ?]]|[? (ad' & ? & ?)]]; [by left| |].
        * right. split; [done|]. exists ad. split; [left|done].
        * right. split; [done|]. exists ad'. split; [by right|done].
      + intros [?|[? (ad' & Hin & ?)]]; [left; by left|].
        apply elem_of_cons in Hin as [->|Hin]; [left; by right|].
        right. eauto. }
  rewrite Hgen. simpl. rewrite lookup_empty. simpl.
  split; [|by right]. intros [?%not_elem_of_empty|?]; done.
Qed.
End nodes.

(** ** Registered aliases *)

Lemma dict_set_elem_of {V} (d : list (string * V)) k v x :
  x ∈ dict_set d k v → x ∈ d ∨ x = (k, v).
Proof.
  induction d as [|kv d IH]; simpl.
  - intros ->%list_elem_of_singleton. by right.
  - case_decide.
    + intros [->|?]%elem_of_cons; [by right|left; by right].
    + intros [->|Hin]%elem_of_cons; [left; left|].
      destruct (IH Hin); [left; by right|by right].
Qed.

Lemma op_node_names_registered l st alias ad :
  (alias, ad) ∈ (foldl AssetGraph.op_node_names_step st l).2 →
  (alias, ad) ∈ st.2 ∨ ad ∈ l.
Proof.
  revert st. induction l as [|ad' l IH]; intros st; simpl; [by left|].
  intros [Hin|Hin]%IH; [|right; by right].
  simpl in Hin. apply dict_set_elem_of in Hin as [?|[= _ ->]]; [by left|right; left].
Qed.

Lemma build_registered assets_defs alias ad :
  (alias, ad) ∈ AssetGraph._build_assets_defs_by_op_node_names assets_defs →
  ad ∈ assets_defs ∧ AssetsDefinition.is_executable ad = true.
Proof.
  unfold AssetGraph._build_assets_defs_by_op_node_names.
  intros [Hin|Hin]%op_node_names_registered; [by apply elem_of_nil in Hin|].
  unfold AssetGraph.sorted_executable in Hin.
  apply list_elem_of_filter in Hin as [Hexec Hin].
  by rewrite (sorted_Permutation key_list_le AssetGraph.sorted_keys) in Hin.
Qed.

(** ** Check keys bound to definitions *)

Section bound.
Context {env : Collaborators}.

Lemma update_check_keys_lookup ad m ck :
  AssetGraph.update_check_keys ad m !! ck
  = if decide (ck ∈ AssetsDefinition.check_keys ad) then Some ad else m !! ck.
Proof.
  unfold AssetGraph.update_check_keys.
  assert (∀ ks (m : gmap AssetCheckKey AssetsDefinition.t),
            foldl (λ acc k, <[k := ad]> acc) m ks !! ck
                  = if decide (ck ∈ ks) then Some ad else m !! ck) as Hgen.
  { clear m. induction ks as [|k ks IH]; intros m; simpl.
    - destruct (decide (ck ∈ [])) as [Hin|]; [by apply elem_of_nil in Hin|done].
    - rewrite IH.
      destruct (decide (ck ∈ ks)) as [Hin|Hnin], (decide (ck ∈ k :: ks)) as [Hin'|Hnin'];
        try done.
      + destruct Hnin'. by right.
      + apply elem_of_cons in Hin' as [->|?]; [|done]. by rewrite lookup_insert_eq.
      + rewrite lookup_insert_ne; [done|]. intros ->. destruct Hnin'. left. }
  rewrite Hgen. destruct (decide (ck ∈ AssetsDefinition.check_keys ad)) as [Hin|Hnin].
  - by rewrite decide_True by (by apply elem_of_elements).
  - rewrite decide_False; [done|]. by rewrite elem_of_elements.
Qed.

Lemma bind_op_node_checks st item st' ck :
  AssetGraph.bind_op_node st item = Ok st' →
  st'.2 !! ck = if decide (binds item.2 ck) then Some item.2 else st.2 !! ck.
Proof.
  unfold AssetGraph.bind_op_node. intros Hrun.
  apply bind_Ok in Hrun as ([] & _ & Hrun).
  apply bind_Ok in Hrun as (outs & _ & Hrun).
  assert (st'.2 = if decide (AssetsDefinition.check_specs_by_output_name item.2 = [])
                  then st.2 else AssetGraph.update_check_keys item.2 st.2) as ->.
  { destruct (AssetsDefinition.check_specs_by_output_name item.2) as [|s specs].
    - by injection Hrun as <-.
    - by apply bind_Ok in Hrun as ([] & _ & [= <-]). }
  destruct (decide (binds item.2 ck)) as [[Hspecs Hin]|Hnb].
  - rewrite decide_False by done. rewrite update_check_keys_lookup.
    by rewrite decide_True.
  - case_decide as Hspecs; [done|]. rewrite update_check_keys_lookup.
    rewrite decide_False; [done|]. intros Hin. by apply Hnb.
Qed.

(** After the loop a check key is bound as the last definition binding it
    left it, or as it was before the loop when no definition binds it. *)
Lemma bound_checks_lookup items st st' ck :
  for_fold AssetGraph.bind_op_node st items = Ok st' →
  (st'.2 !! ck = st.2 !! ck ∧ ∀ item, item ∈ items → ¬ binds item.2 ck) ∨
  ∃ item, item ∈ items ∧ binds item.2 ck ∧ st'.2 !! ck = Some item.2.
Proof.
  revert st. induction items as [|item items IH]; intros st; simpl.
  - intros [= <-]. left. split; [done|]. by intros ? ?%elem_of_nil.
  - destruct (AssetGraph.bind_op_node st item) as [st1|e] eqn:Hstep; simpl; [|done].
    intros Hrun. pose proof (bind_op_node_checks _ _ _ ck Hstep) as Hst1.
    destruct (IH _ Hrun) as [[Heq Hnone]|(item' & Hin & Hb & Hlookup)].
    + destruct (decide (binds item.2 ck)) as [Hb|Hnb].
      * right. exists item. split; [left|]. split; [done|]. by rewrite Heq.
      * left. split; [by rewrite Heq|].
        intros item' [->|?]%elem_of_cons; [done|by apply Hnone].
    + right. exists item'. split; [by right|done].
Qed.
End bound.

(** ** Normalization *)

Section normalize.
Context {env : Collaborators}.

Lemma resolve_inputs_Ok assets_defs ad ad' :
  AssetGraph.resolve_inputs assets_defs ad = Ok ad' →
  ∃ replacements, ad' = AssetsDefinition.with_attributes ad replacements.
Proof.
  unfold AssetGraph.resolve_inputs. intros (r & _ & [= <-])%bind_Ok. eauto.
Qed.

Lemma resolve_inputs_keys assets_defs ad ad' :
  AssetGraph.resolve_inputs assets_defs ad = Ok ad' →
  AssetsDefinition.keys ad' = AssetsDefinition.keys ad ∧
  AssetsDefinition.is_executable ad' = AssetsDefinition.is_executable ad.
Proof. by intros (r & ->)%resolve_inputs_Ok. Qed.

Lemma resolved_all_asset_keys assets_defs l l' :
  Forall2 (λ x y, AssetGraph.resolve_inputs assets_defs x = Ok y) l l' →
  all_asset_keys l' = all_asset_keys l.
Proof.
  intros Hall. apply set_eq. intros k. rewrite !elem_of_all_asset_keys.
  induction Hall as [|x y l l' Hxy _ IH].
  { split; intros (? & Hin & _); by apply elem_of_nil in Hin. }
  apply resolve_inputs_keys in Hxy as [Hkeys _]. split.
  - intros (ad & [->|Hin]%elem_of_cons & Hk).
    + exists x. split; [left|by rewrite <-Hkeys].
    + destruct (proj1 IH) as (ad' & ? & ?); [by eauto|].
      exists ad'. split; [by right|done].
  - intros (ad & [->|Hin]%elem_of_cons & Hk).
    + exists y. split; [left|by rewrite Hkeys].
    + destruct (proj2 IH) as (ad' & ? & ?); [by eauto|].
      exists ad'. split; [by right|done].
Qed.

(** What [normalize_assets] returns: the resolved definitions, followed by a
    stub for every referenced key that no provided definition produces. *)
Lemma normalize_assets_Ok assets assets_defs :
  AssetGraph.normalize_assets assets = Ok assets_defs ↔
  ∃ resolved,
    for_map (AssetGraph.resolve_inputs (AssetGraph.as_assets_def <$> assets))
            (AssetGraph.as_assets_def <$> assets) = Ok resolved ∧
    assets_defs
    = resolved ++
      (AssetGraph.stub_asset
         <$> elements (⋃ (AssetsDefinition.dependency_keys <$> resolved)
                       ∖ all_asset_keys (AssetGraph.as_assets_def <$> assets))).
Proof.
  unfold AssetGraph.normalize_assets. rewrite bind_Ok. split.
  - intros (resolved & Hr & [= <-]). eauto.
  - intros (resolved & Hr & ->). eauto.
Qed.

Lemma stub_asset_dependency_keys k :
  AssetsDefinition.dependency_keys (AssetGraph.stub_asset k) = ∅.
Proof.
  apply set_eq. intros p. rewrite elem_of_dependency_keys. split.
  - intros (k' & deps & Hk' & Hdeps & Hp). simpl in *.
    apply elem_of_singleton in Hk' as ->.
    rewrite lookup_singleton_eq in Hdeps. injection Hdeps as <-.
    by apply not_elem_of_empty in Hp.
  - by intros ?%not_elem_of_empty.
Qed.

(** Every key referenced as a dependency is produced by a normalized
    definition. *)
Lemma normalize_assets_closed assets assets_defs ad p :
  AssetGraph.normalize_assets assets = Ok assets_defs →
  ad ∈ assets_defs → p ∈ AssetsDefinition.dependency_keys ad →
  p ∈ all_asset_keys assets_defs.
Proof.
  intros (resolved & Hr & ->)%normalize_assets_Ok Had Hp.
  apply for_map_Ok_inv, resolved_all_asset_keys in Hr.
  apply elem_of_app in Had as [Had|Had].
  - set (provided := all_asset_keys (AssetGraph.as_assets_def <$> assets)) in *.
    destruct (decide (p ∈ provided)) as [Hprov|Hnprov].
    + rewrite <-Hr in Hprov. apply elem_of_all_asset_keys in Hprov as (ad' & ? & ?).
      apply elem_of_all_asset_keys. exists ad'. split; [|done].
      apply elem_of_app. by left.
    + apply elem_of_all_asset_keys. exists (AssetGraph.stub_asset p). split.
      * apply elem_of_app. right. apply list_elem_of_fmap. exists p. split; [done|].
        apply elem_of_elements, elem_of_difference. split; [|done].
        apply elem_of_union_list. eexists. split; [|done].
        apply list_elem_of_fmap. eauto.
      * simpl. by apply elem_of_singleton.
  - apply list_elem_of_fmap in Had as (k & -> & _).
    rewrite stub_asset_dependency_keys in Hp. by apply not_elem_of_empty in Hp.
Qed.

(** ** The nodes of a constructed graph *)

(** Building the nodes never fails on a lookup in the dependency graph. *)
Lemma asset_nodes_by_key_Ok assets_defs checks :
  ∃ nodes,
    AssetGraph.asset_nodes_by_key assets_defs (generate_asset_dep_graph assets_defs) checks
    = Ok nodes.
Proof.
  apply asset_nodes_Ok. intros ad k [Had Hk]%elem_of_defs_and_keys.
  assert (k ∈ all_asset_keys assets_defs) as Hprod
    by (apply elem_of_all_asset_keys; eauto).
  split.
  - eexists. apply upstream_lookup. done.
  - eexists. apply downstream_lookup. split; [|done]. apply elem_of_union. by left.
Qed.

Lemma asset_nodes_by_key_lookup assets_defs checks nodes k n :
  AssetGraph.asset_nodes_by_key assets_defs (generate_asset_dep_graph assets_defs) checks
  = Ok nodes →
  nodes !! k = Some n →
  ∃ ad, ad ∈ assets_defs ∧ k ∈ AssetsDefinition.keys ad ∧
    n = AssetNode.mk k
          (declared_parents assets_defs k)
          (filter (λ c, k ∈ declared_parents assets_defs c) (all_asset_keys assets_defs))
          ad (default ∅ (checks !! k)).
Proof.
  intros Hrun Hn.
  destruct (asset_nodes_lookup _ _ _ _ _ _ _ Hrun Hn) as [Hempty|(ad & Hin & Hbuilt)].
  { by rewrite lookup_empty in Hempty. }
  apply elem_of_defs_and_keys in Hin as [Had Hk].
  destruct Hbuilt as (parents & children & Hup & Hdown & ->).
  apply upstream_lookup in Hup as [_ ->].
  apply downstream_lookup in Hdown as [_ ->].
  eauto.
Qed.

Lemma asset_nodes_by_key_dom assets_defs checks nodes k :
  AssetGraph.asset_nodes_by_key assets_defs (generate_asset_dep_graph assets_defs) checks
  = Ok nodes →
  is_Some (nodes !! k) ↔ k ∈ all_asset_keys assets_defs.
Proof.
  intros Hrun. rewrite (asset_nodes_dom _ _ _ _ _ _ Hrun), elem_of_all_asset_keys.
  rewrite lookup_empty. split.
  - intros [[? ?]|(ad & Hin)]; [done|]. apply elem_of_defs_and_keys in Hin. eauto.
  - intros (ad & Hin). right. exists ad. by apply elem_of_defs_and_keys.
Qed.

(** ** Construction, step by step *)

Lemma from_assets_Ok assets g :
  AssetGraph.from_assets assets = Ok g ↔
  ∃ assets_defs bound,
    AssetGraph.normalize_assets assets = Ok assets_defs ∧
    AssetGraph.asset_nodes_by_key assets_defs (generate_asset_dep_graph assets_defs)
      (AssetGraph.bind_check_keys assets_defs).2 = Ok (AssetGraph._asset_nodes_by_key g) ∧
    for_fold AssetGraph.bind_op_node (∅, ∅)
      (AssetGraph._build_assets_defs_by_op_node_names assets_defs) = Ok bound ∧
    AssetGraph._assets_defs_by_check_key g = bound.2 ∧
    AssetGraph._asset_keys_by_node_output_handle g = bound.1.
Proof.
  unfold AssetGraph.from_assets. rewrite bind_Ok. setoid_rewrite bind_Ok.
  setoid_rewrite bind_Ok. split.
  - intros (defs & Hdefs & nodes & Hnodes & bound & Hbound & [= <-]). simpl.
    exists defs, bound. done.
  - intros (defs & bound & Hdefs & Hnodes & Hbound & Hchecks & Houts).
    exists defs. split; [done|]. eexists. split; [done|]. exists bound.
    split; [done|]. destruct g. simpl in *. by subst.
Qed.
End normalize.

Section constructed.
Context {env : Collaborators}.

(** The nodes of a constructed graph, in terms of the normalized definitions. *)
Lemma constructed_node assets assets_defs g k n :
  AssetGraph.normalize_assets assets = Ok assets_defs →
  AssetGraph.from_assets assets = Ok g →
  AssetGraph._asset_nodes_by_key g !! k = Some n →
  ∃ ad, ad ∈ assets_defs ∧ k ∈ AssetsDefinition.keys ad ∧
    n = AssetNode.mk k
          (declared_parents assets_defs k)
          (filter (λ c, k ∈ declared_parents assets_defs c) (all_asset_keys assets_defs))
          ad (default ∅ ((AssetGraph.bind_check_keys assets_defs).2 !! k)).
Proof.
  intros Hdefs (defs & bound & Hdefs' & Hnodes & _)%from_assets_Ok Hn.
  rewrite Hdefs in Hdefs'. injection Hdefs' as <-.
  by eapply asset_nodes_by_key_lookup.
Qed.

Lemma constructed_dom assets assets_defs g k :
  AssetGraph.normalize_assets assets = Ok assets_defs →
  AssetGraph.from_assets assets = Ok g →
  is_Some (AssetGraph._asset_nodes_by_key g !! k) ↔ k ∈ all_asset_keys assets_defs.
Proof.
  intros Hdefs (defs & bound & Hdefs' & Hnodes & _)%from_assets_Ok.
  rewrite Hdefs in Hdefs'. injection Hdefs' as <-.
  by eapply asset_nodes_by_key_dom.
Qed.

Lemma constructed_check assets assets_defs g ck ad :
  AssetGraph.normalize_assets assets = Ok assets_defs →
  AssetGraph.from_assets assets = Ok g →
  AssetGraph._assets_defs_by_check_key g !! ck = Some ad →
  ∃ alias,
    (alias, ad) ∈ AssetGraph._build_assets_defs_by_op_node_names assets_defs ∧
    binds ad ck.
Proof.
  intros Hdefs (defs & bound & Hdefs' & _ & Hbound & Hchecks & _)%from_assets_Ok Hck.
  rewrite Hdefs in Hdefs'. injection Hdefs' as <-.
  rewrite Hchecks in Hck.
  destruct (bound_checks_lookup _ _ _ ck Hbound) as [[Heq _]|(item & Hin & Hb & Hlookup)].
  - simpl in Heq. rewrite Heq, lookup_empty in Hck. done.
  - rewrite Hlookup in Hck. injection Hck as <-. exists item.1. by destruct item.
Qed.

(** C8. In every constructed graph adjacency is symmetric: for asset keys [a]
    and [b] of the graph, [b] is among the parent keys of the node of [a]
    exactly when [a] is among the child keys of the node of [b]. *)
Theorem adjacency_symmetric assets g a b node_a node_b :
  AssetGraph.from_assets assets = Ok g →
  AssetGraph._asset_nodes_by_key g !! a = Some node_a →
  AssetGraph._asset_nodes_by_key g !! b = Some node_b →
  b ∈ AssetNode.parent_keys node_a ↔ a ∈ AssetNode.child_keys node_b.
Proof.
  intros Hg Ha Hb.
  pose proof Hg as (defs & bound & Hdefs & _)%from_assets_Ok.
  destruct (constructed_node _ _ _ _ _ Hdefs Hg Ha) as (ad_a & _ & _ & ->).
  destruct (constructed_node _ _ _ _ _ Hdefs Hg Hb) as (ad_b & _ & _ & ->).
  simpl. rewrite elem_of_filter.
  split; [|by intros [? _]]. intros Hparent. split; [done|].
  apply (constructed_dom _ _ _ a Hdefs Hg). eauto.
Qed.

End constructed.

Lemma adjacency_symmetric_witness :
  let g := ScenarioGraphs.partitioned_parent_graph in
  ["parent"] ∈ AssetNode.parent_keys (ScenarioGraphs.node_of g ["child"]) ↔
  ["child"] ∈ AssetNode.child_keys (ScenarioGraphs.node_of g ["parent"]).
Proof.
  intros g.
  apply (adjacency_symmetric (env := Scenario.collaborators)
           [inl Scenario.daily_parent; inl Scenario.unpartitioned_child] g).
  - vm_compute. reflexivity.
  - vm_compute. reflexivity.
  - vm_compute. reflexivity.
Defined.


(** ** Execution sets *)

Lemma at_most_one_element `{Countable A} (X : gset A) (x : A) :
  x ∈ X → size X ≤ 1 → X = {[x]}.
Proof.
  intros Hx Hsize.
  assert (size X = 1) as Hone.
  { assert (size X ≠ 0); [|lia]. apply size_non_empty_iff. set_solver. }
  apply set_eq. intros y. rewrite elem_of_singleton. split.
  - intros Hy. by apply (size_singleton_inv X).
  - by intros ->.
Qed.

Section execution_set.
Context {env : Collaborators}.

Lemma owning_definition_produces assets g x ad :
  AssetGraph.from_assets assets = Ok g →
  owning_definition g x = Some ad →
  x ∈ AssetsDefinition.asset_and_check_keys ad.
Proof.
  intros Hg Hown.
  pose proof Hg as (defs & bound & Hdefs & _)%from_assets_Ok.
  unfold AssetsDefinition.asset_and_check_keys. apply elem_of_union.
  destruct x as [k|ck]; simpl in Hown.
  - destruct (AssetGraph._asset_nodes_by_key g !! k) as [n|] eqn:Hn; [|done].
    injection Hown as <-.
    destruct (constructed_node _ _ _ _ _ Hdefs Hg Hn) as (ad & _ & Hk & ->).
    left. apply elem_of_map. eauto.
  - destruct (constructed_check _ _ _ _ _ Hdefs Hg Hown) as (alias & _ & _ & Hck).
    right. apply elem_of_map. eauto.
Qed.

End execution_set.


(** ** Check bindings *)

Section check_binding.
Context {env : Collaborators}.

End check_binding.



(** The alias collision: the second definition on the op [foo] is registered
    as [foo_2], the definition on the op called [foo_2] takes that alias
    over, and the check key of the second definition stays unbound. *)
Example alias_collision_loses_check :
  let assets_defs := [Scenario.first_foo; Scenario.second_foo; Scenario.foo_2] in
  let g := ScenarioGraphs.alias_collision_graph in
  AssetGraph.from_assets (env := Scenario.collaborators)
    [inl Scenario.first_foo; inl Scenario.second_foo; inl Scenario.foo_2] = Ok g ∧
  AssetGraph._build_assets_defs_by_op_node_names assets_defs
    = [("foo", Scenario.first_foo); ("foo_2", Scenario.foo_2)] ∧
  mkAssetCheckKey ["b"] "c2" ∈ AssetsDefinition.check_keys Scenario.second_foo ∧
  (AssetGraph.bind_check_keys assets_defs).1 !! mkAssetCheckKey ["b"] "c2"
    = Some Scenario.second_foo ∧
  AssetGraph._assets_defs_by_check_key g !! mkAssetCheckKey ["b"] "c2" = None.
Proof.
  intros assets_defs g.
  split; [vm_compute; reflexivity|].
  split; [vm_compute; reflexivity|].
  split; [refine (bool_decide_unpack _ _); vm_compute; exact I|].
  split; vm_compute; reflexivity.
Qed.

(** ** Order of the input *)

Lemma for_fold_ext {A S} (body1 body2 : S → A → result S) acc l :
  (∀ acc x, body1 acc x = body2 acc x) → for_fold body1 acc l = for_fold body2 acc l.
Proof.
  intros Hext. revert acc. induction l as [|x l IH]; intros acc; simpl; [done|].
  rewrite Hext. destruct (body2 acc x); simpl; [apply IH|done].
Qed.

Lemma Forall2_elem_of_r {A B} (P : A → B → Prop) l l' y :
  Forall2 P l l' → y ∈ l' → ∃ x, x ∈ l ∧ P x y.
Proof.
  induction 1 as [|x y' l l' Hxy _ IH]; [by intros ?%elem_of_nil|].
  intros [->|Hin]%elem_of_cons.
  - exists x. split; [left|done].
  - destruct (IH Hin) as (x' & ? & ?). exists x'. split; [by right|done].
Qed.

Lemma sorted_keys_inj ad1 ad2 :
  AssetGraph.sorted_keys ad1 = AssetGraph.sorted_keys ad2 →
  AssetsDefinition.keys ad1 = AssetsDefinition.keys ad2.
Proof.
  unfold AssetGraph.sorted_keys. intros Heq. apply set_eq. intros k.
  rewrite <-!elem_of_elements.
  rewrite <-(sorted_Permutation AssetKey_le id (elements (AssetsDefinition.keys ad1))).
  rewrite <-(sorted_Permutation AssetKey_le id (elements (AssetsDefinition.keys ad2))).
  by rewrite Heq.
Qed.

Lemma all_asset_keys_Permutation l1 l2 :
  l1 ≡ₚ l2 → all_asset_keys l1 = all_asset_keys l2.
Proof.
  intros Hperm. apply set_eq. intros k. rewrite !elem_of_all_asset_keys.
  by setoid_rewrite Hperm.
Qed.

Lemma referenced_Permutation l1 l2 :
  l1 ≡ₚ l2 →
  ⋃ (AssetsDefinition.dependency_keys <$> l1)
  = ⋃ (AssetsDefinition.dependency_keys <$> l2) :> gset AssetKey.
Proof.
  intros Hperm. apply set_eq. intros k. rewrite !elem_of_union_list.
  by setoid_rewrite Hperm.
Qed.

Lemma declared_parents_Permutation l1 l2 k :
  l1 ≡ₚ l2 → declared_parents l1 k = declared_parents l2 k.
Proof.
  intros Hperm. apply set_eq. intros p. rewrite !elem_of_declared_parents.
  by setoid_rewrite Hperm.
Qed.

Lemma check_keys_by_asset_key_Permutation l1 l2 k :
  l1 ≡ₚ l2 →
  default ∅ ((AssetGraph.bind_check_keys l1).2 !! k)
  = default ∅ ((AssetGraph.bind_check_keys l2).2 !! k).
Proof.
  intros Hperm. apply set_eq. intros ck. rewrite !bind_check_keys_elem_of.
  by setoid_rewrite Hperm.
Qed.

Section order.
Context {env : Collaborators}.

Lemma resolve_inputs_ext assets_defs1 assets_defs2 ad :
  (∀ input_name,
     get_resolved_asset_key_for_input assets_defs1 ad input_name
     = get_resolved_asset_key_for_input assets_defs2 ad input_name) →
  AssetGraph.resolve_inputs assets_defs1 ad = AssetGraph.resolve_inputs assets_defs2 ad.
Proof.
  intros Hext. unfold AssetGraph.resolve_inputs. f_equal.
  apply for_fold_ext. intros acc item. by rewrite Hext.
Qed.

(** Reordering the input reorders the normalized definitions. *)
Lemma normalize_assets_Permutation assets1 assets2 assets_defs1 :
  assets1 ≡ₚ assets2 →
  (∀ ad input_name,
     get_resolved_asset_key_for_input (AssetGraph.as_assets_def <$> assets1) ad input_name
     = get_resolved_asset_key_for_input (AssetGraph.as_assets_def <$> assets2) ad input_name) →
  AssetGraph.normalize_assets assets1 = Ok assets_defs1 →
  ∃ resolved1 resolved2 stubs,
    for_map (AssetGraph.resolve_inputs (AssetGraph.as_assets_def <$> assets1))
            (AssetGraph.as_assets_def <$> assets1) = Ok resolved1 ∧
    resolved1 ≡ₚ resolved2 ∧
    assets_defs1 = resolved1 ++ stubs ∧
    AssetGraph.normalize_assets assets2 = Ok (resolved2 ++ stubs) ∧
    Forall (λ stub, AssetsDefinition.is_executable stub = false) stubs.
Proof.
  intros Hperm Hres (resolved1 & Hr1 & ->)%normalize_assets_Ok.
  assert (AssetGraph.as_assets_def <$> assets1 ≡ₚ AssetGraph.as_assets_def <$> assets2)
    as Hperm' by (by rewrite Hperm).
  destruct (for_map_Permutation _ _ _ _ Hperm' Hr1) as (resolved2 & Hr2 & Hpr).
  exists resolved1, resolved2. eexists. split; [done|]. split; [done|].
  split; [done|]. split.
  - apply normalize_assets_Ok. exists resolved2. split.
    + rewrite <-Hr2. apply for_map_ext. intros ad _. symmetry.
      apply resolve_inputs_ext. intros. apply Hres.
    + by rewrite <-(referenced_Permutation _ _ Hpr),
                 <-(all_asset_keys_Permutation _ _ Hperm').
  - apply Forall_fmap, Forall_forall. done.
Qed.

(** Definitions with pairwise distinct sort keys are visited in the same
    order however the input is arranged. *)
Lemma sorted_executable_Permutation l1 l2 :
  l1 ≡ₚ l2 →
  (∀ x y, x ∈ l1 → y ∈ l1 →
     AssetsDefinition.is_executable x = true → AssetsDefinition.is_executable y = true →
     AssetsDefinition.keys x = AssetsDefinition.keys y → x = y) →
  AssetGraph.sorted_executable l1 = AssetGraph.sorted_executable l2.
Proof.
  intros Hperm Hinj. unfold AssetGraph.sorted_executable.
  rewrite !(sorted_filter key_list_le AssetGraph.sorted_keys).
  apply (sorted_unique key_list_le AssetGraph.sorted_keys).
  - by rewrite Hperm.
  - intros x y [Hx ?]%list_elem_of_filter [Hy ?]%list_elem_of_filter Hkeys.
    apply Hinj; try done. by apply sorted_keys_inj.
Qed.

Lemma normalized_distinct_keys assets_defs resolved stubs :
  Forall2 (λ x y, AssetGraph.resolve_inputs assets_defs x = Ok y) assets_defs resolved →
  Forall (λ stub, AssetsDefinition.is_executable stub = false) stubs →
  (∀ x y, x ∈ assets_defs → y ∈ assets_defs →
     AssetsDefinition.is_executable x = true → AssetsDefinition.is_executable y = true →
     AssetsDefinition.keys x = AssetsDefinition.keys y → x = y) →
  ∀ x y, x ∈ resolved ++ stubs → y ∈ resolved ++ stubs →
    AssetsDefinition.is_executable x = true → AssetsDefinition.is_executable y = true →
    AssetsDefinition.keys x = AssetsDefinition.keys y → x = y.
Proof.
  intros Hres Hstubs Hinj.
  assert (∀ x, x ∈ resolved ++ stubs → AssetsDefinition.is_executable x = true →
            ∃ x0, x0 ∈ assets_defs ∧ AssetGraph.resolve_inputs assets_defs x0 = Ok x)
    as Horigin.
  { intros x [Hx|Hx]%elem_of_app Hexec.
    - exact (Forall2_elem_of_r _ _ _ _ Hres Hx).
    - rewrite Forall_forall in Hstubs. rewrite (Hstubs x Hx) in Hexec. done. }
  intros x y Hx Hy Hxe Hye Hkeys.
  destruct (Horigin x Hx Hxe) as (x0 & Hx0 & Hrx).
  destruct (Horigin y Hy Hye) as (y0 & Hy0 & Hry).
  destruct (resolve_inputs_keys _ _ _ Hrx) as [Hkx Hex].
  destruct (resolve_inputs_keys _ _ _ Hry) as [Hky Hey].
  assert (x0 = y0) as ->.
  { apply Hinj; [done|done|congruence|congruence|congruence]. }
  rewrite Hrx in Hry. by injection Hry.
Qed.

End order.



(** * Further properties *)

(** ** The mapping from node aliases to definitions *)

Lemma dict_get_set_ne {V} (d : list (string * V)) (k k' : string) (v : V) :
  k ≠ k' → dict_get (dict_set d k v) k' = dict_get d k'.
Proof.
  intros Hne. induction d as [|kv d IH]; simpl.
  - by rewrite decide_False.
  - destruct (decide (kv.1 = k)) as [Hk|Hk]; simpl.
    + rewrite decide_False by done. rewrite decide_False by congruence. done.
    + by rewrite IH.
Qed.

Lemma dict_set_keys {V} (d : list (string * V)) (k : string) (v : V) :
  (dict_set d k v).*1 = if decide (k ∈ d.*1) then d.*1 else d.*1 ++ [k].
Proof.
  induction d as [|kv d IH].
  - simpl. destruct (decide (k ∈ [])) as [Hin|]; [by apply elem_of_nil in Hin|done].
  - cbn [dict_set]. destruct (decide (kv.1 = k)) as [Hk|Hk].
    + rewrite !fmap_cons. simpl. rewrite decide_True; [by rewrite Hk|]. rewrite <-Hk. left.
    + rewrite !fmap_cons, IH. destruct (decide (k ∈ d.*1)) as [Hin|Hnin].
      * rewrite decide_True; [done|by right].
      * rewrite decide_False; [done|].
        intros [?|?]%elem_of_cons; [congruence|done].
Qed.

Lemma dict_set_NoDup {V} (d : list (string * V)) (k : string) (v : V) :
  NoDup d.*1 → NoDup (dict_set d k v).*1.
Proof.
  intros Hd. rewrite dict_set_keys. case_decide as Hin; [done|].
  apply NoDup_app. split; [done|]. split; [|apply NoDup_singleton].
  intros x Hx ->%list_elem_of_singleton. done.
Qed.

Lemma dict_set_length {V} (d : list (string * V)) (k : string) (v : V) :
  length (dict_set d k v) ≤ S (length d).
Proof.
  induction d as [|kv d IH]; simpl; [done|]. case_decide; simpl; lia.
Qed.

Lemma dict_set_fresh {V} (d : list (string * V)) (k : string) (v : V) :
  k ∉ d.*1 → dict_set d k v = d ++ [(k, v)].
Proof.
  induction d as [|kv d IH]; simpl; [done|].
  intros Hnin. rewrite decide_False.
  - rewrite IH; [done|]. intros ?. apply Hnin. by right.
  - intros Hk. apply Hnin. rewrite <-Hk. left.
Qed.

(** The loop folds the writes into the dictionary. *)
Lemma op_node_names_fold l collisions result :
  (foldl AssetGraph.op_node_names_step (collisions, result) l).2
  = foldl (λ d w, dict_set d w.1 w.2) result (alias_assignments collisions l).
Proof.
  revert collisions result. induction l as [|ad l IH]; intros collisions result; [done|].
  simpl. unfold AssetGraph.op_node_names_step at 2. simpl. rewrite IH. done.
Qed.

Lemma alias_assignments_defs l collisions :
  (alias_assignments collisions l).*2 = l.
Proof.
  revert collisions. induction l as [|ad l IH]; intros collisions; simpl; [done|].
  by rewrite IH.
Qed.

Lemma writes_lookup {V} (writes : list (string * V)) (d : list (string * V)) (k : string) :
  dict_get (foldl (λ d w, dict_set d w.1 w.2) d writes) k
  = match last_write writes k with
    | Some v => Some v
    | None => dict_get d k
    end.
Proof.
  unfold last_write. revert d. induction writes as [|w writes IH]; intros d; simpl; [done|].
  rewrite IH, filter_cons. destruct (decide (w.1 = k)) as [Hk|Hk].
  - rewrite last_cons. destruct (last (filter (λ w0, w0.1 = k) writes)); simpl; [done|].
    rewrite <-Hk. apply dict_get_set.
  - destruct (last (filter (λ w0, w0.1 = k) writes)); simpl; [done|].
    by apply dict_get_set_ne.
Qed.

Lemma writes_NoDup {V} (writes : list (string * V)) (d : list (string * V)) :
  NoDup d.*1 → NoDup (foldl (λ d w, dict_set d w.1 w.2) d writes).*1.
Proof.
  revert d. induction writes as [|w writes IH]; intros d Hd; simpl; [done|].
  by apply IH, dict_set_NoDup.
Qed.

Lemma writes_length {V} (writes : list (string * V)) (d : list (string * V)) :
  length (foldl (λ d w, dict_set d w.1 w.2) d writes) ≤ length d + length writes.
Proof.
  revert d. induction writes as [|w writes IH]; intros d; simpl; [lia|].
  etrans; [apply IH|]. pose proof (dict_set_length d w.1 w.2). lia.
Qed.

(** X1. The mapping [_build_assets_defs_by_op_node_names] returns holds, for every
    alias, the last definition the loop assigned that alias to: a definition
    whose alias is assigned again later is no longer in the mapping. *)
Theorem op_node_names_last_write_wins
    (assets_defs : list AssetsDefinition.t) (alias : string) :
  dict_get (AssetGraph._build_assets_defs_by_op_node_names assets_defs) alias
  = last_write (alias_assignments ∅ (AssetGraph.sorted_executable assets_defs)) alias.
Proof.
  unfold AssetGraph._build_assets_defs_by_op_node_names.
  rewrite op_node_names_fold, writes_lookup.
  by destruct (last_write _ _).
Qed.

(** X2. The mapping has pairwise distinct aliases, holds only executable
    definitions of the list it was given, and has at most as many entries as
    that list has executable definitions. *)
Theorem op_node_names_entries (assets_defs : list AssetsDefinition.t) :
  NoDup (AssetGraph._build_assets_defs_by_op_node_names assets_defs).*1 ∧
  Forall (λ entry, entry.2 ∈ assets_defs ∧ AssetsDefinition.is_executable entry.2 = true)
         (AssetGraph._build_assets_defs_by_op_node_names assets_defs) ∧
  length (AssetGraph._build_assets_defs_by_op_node_names assets_defs)
  ≤ length (filter (λ ad, AssetsDefinition.is_executable ad = true) assets_defs).
Proof.
  split; [|split].
  - unfold AssetGraph._build_assets_defs_by_op_node_names.
    rewrite op_node_names_fold. apply writes_NoDup. constructor.
  - apply Forall_forall. intros [alias ad] Hin. by apply build_registered in Hin.
  - unfold AssetGraph._build_assets_defs_by_op_node_names.
    rewrite op_node_names_fold. etrans; [apply writes_length|]. simpl.
    rewrite <-(length_fmap snd), alias_assignments_defs.
    unfold AssetGraph.sorted_executable.
    by rewrite (sorted_Permutation key_list_le AssetGraph.sorted_keys).
Qed.

Lemma op_node_names_fresh l collisions result :
  NoDup ((λ ad, node_def_name (AssetsDefinition.node_def ad)) <$> l) →
  (∀ ad, ad ∈ l →
     collisions !! node_def_name (AssetsDefinition.node_def ad) = None ∧
     node_def_name (AssetsDefinition.node_def ad) ∉ result.*1) →
  (foldl AssetGraph.op_node_names_step (collisions, result) l).2
  = result ++ ((λ ad, (node_def_name (AssetsDefinition.node_def ad), ad)) <$> l).
Proof.
  revert collisions result.
  induction l as [|ad l IH]; intros collisions result Hnames Hfresh; simpl.
  { by rewrite app_nil_r. }
  rewrite fmap_cons in Hnames. apply NoDup_cons in Hnames as [Hnew Hnames].
  destruct (Hfresh ad) as [Hcol Hres]; [left|].
  unfold AssetGraph.op_node_names_step at 2, AssetGraph.node_alias. simpl.
  rewrite Hcol. rewrite dict_set_fresh by done.
  rewrite IH; [by rewrite <-app_assoc|done|].
  intros ad' Hin. destruct (Hfresh ad') as [Hcol' Hres']; [by right|].
  assert (node_def_name (AssetsDefinition.node_def ad)
          ≠ node_def_name (AssetsDefinition.node_def ad')) as Hne.
  { intros Heq. apply Hnew. rewrite Heq. apply list_elem_of_fmap. eauto. }
  split.
  - by rewrite lookup_insert_ne.
  - rewrite fmap_app. intros [?|Hin']%elem_of_app; [done|].
    apply list_elem_of_singleton in Hin'. simpl in Hin'. congruence.
Qed.

(** X3. When the executable definitions are backed by nodes with pairwise
    distinct names, no suffix is added: the mapping holds every executable
    definition under the name of its node, in sorted order. *)
Theorem op_node_names_without_collision (assets_defs : list AssetsDefinition.t) :
  NoDup ((λ ad, node_def_name (AssetsDefinition.node_def ad))
           <$> filter (λ ad, AssetsDefinition.is_executable ad = true) assets_defs) →
  AssetGraph._build_assets_defs_by_op_node_names assets_defs
  = (λ ad, (node_def_name (AssetsDefinition.node_def ad), ad))
      <$> AssetGraph.sorted_executable assets_defs.
Proof.
  intros Hnames. unfold AssetGraph._build_assets_defs_by_op_node_names.
  rewrite op_node_names_fresh; [done| |].
  - unfold AssetGraph.sorted_executable.
    by rewrite (sorted_Permutation key_list_le AssetGraph.sorted_keys).
  - intros ad _. split; [apply lookup_empty|apply not_elem_of_nil].
Qed.

Lemma op_node_names_without_collision_witness :
  let assets_defs := [Scenario.unpartitioned_child; Scenario.daily_parent] in
  AssetGraph._build_assets_defs_by_op_node_names assets_defs
  = (λ ad, (node_def_name (AssetsDefinition.node_def ad), ad))
      <$> AssetGraph.sorted_executable assets_defs.
Proof.
  intros assets_defs.
  apply (op_node_names_without_collision assets_defs).
  refine (bool_decide_unpack _ _). vm_compute. exact I.
Defined.

(** ** Normalization *)

Lemma for_map_succeeds {A B} (body : A → result B) l :
  (∃ l', for_map body l = Ok l') ↔ ∀ x, x ∈ l → ∃ y, body x = Ok y.
Proof.
  induction l as [|x l IH]; simpl.
  - split; [by intros _ ? ?%elem_of_nil|eauto].
  - split.
    + intros (l' & Hrun) x' Hx'.
      destruct (body x) as [y|e] eqn:Hx; simpl in Hrun; [|done].
      destruct (for_map body l) as [ys|e] eqn:Hl; simpl in Hrun; [|done].
      apply elem_of_cons in Hx' as [->|Hx']; [eauto|].
      apply (proj1 IH); eauto.
    + intros Hall. destruct (Hall x) as [y ->]; [left|]. simpl.
      destruct (proj2 IH) as [ys ->]; [|simpl; eauto].
      intros x' Hx'. apply Hall. by right.
Qed.

Lemma for_map_length {A B} (body : A → result B) l l' :
  for_map body l = Ok l' → length l' = length l.
Proof. intros Hrun%for_map_Ok_inv. symmetry. by eapply Forall2_length. Qed.

Section normalization.
Context {env : Collaborators}.

Lemma resolve_inputs_succeeds assets_defs ad :
  (∃ ad', AssetGraph.resolve_inputs assets_defs ad = Ok ad') ↔
  ∀ input, input ∈ AssetsDefinition.keys_by_input_name ad →
    ∃ k, get_resolved_asset_key_for_input assets_defs ad input.1 = Ok k.
Proof.
  unfold AssetGraph.resolve_inputs.
  generalize (∅ : gmap AssetKey AssetKey).
  induction (AssetsDefinition.keys_by_input_name ad) as [|item l IH]; intros acc; simpl.
  - split; [by intros _ ? ?%elem_of_nil|eauto].
  - split.
    + intros (ad' & Hrun) input Hin.
      destruct (get_resolved_asset_key_for_input assets_defs ad item.1) as [k|e] eqn:Hk;
        simpl in Hrun; [|done].
      apply elem_of_cons in Hin as [->|Hin]; [eauto|].
      apply (proj1 (IH (<[item.2:=k]> acc))); eauto.
    + intros Hall. destruct (Hall item) as [k ->]; [left|]. simpl.
      apply (proj2 (IH (<[item.2:=k]> acc))). intros input Hin. apply Hall. by right.
Qed.


(** X5. What normalization returns: the provided definitions in their order,
    each with its input keys rewritten and nothing else changed, followed by
    stubs; there is exactly one stub for every key that some rewritten
    definition depends on and no provided definition produces. *)
Theorem normalize_assets_shape (assets : list (AssetsDefinition.t + SourceAsset.t))
    (assets_defs : list AssetsDefinition.t) :
  AssetGraph.normalize_assets assets = Ok assets_defs →
  ∃ resolved stub_keys,
    assets_defs = resolved ++ (AssetGraph.stub_asset <$> stub_keys) ∧
    Forall2 (λ a ad, ∃ replacements,
               ad = AssetsDefinition.with_attributes (AssetGraph.as_assets_def a) replacements)
            assets resolved ∧
    NoDup stub_keys ∧
    ∀ k, k ∈ stub_keys ↔
         ((k ∉ all_asset_keys (AssetGraph.as_assets_def <$> assets)) ∧
          ∃ ad, ad ∈ resolved ∧ k ∈ AssetsDefinition.dependency_keys ad).
Proof.
  intros (resolved & Hr & ->)%normalize_assets_Ok.
  eexists resolved, _. split; [done|]. split; [|split].
  - apply for_map_Ok_inv in Hr. apply Forall2_fmap_l in Hr.
    eapply Forall2_impl; [done|]. intros a ad Hres. by apply resolve_inputs_Ok in Hres.
  - apply NoDup_elements.
  - intros k. rewrite elem_of_elements, elem_of_difference, elem_of_union_list. split.
    + intros [(X & HX & Hk) Hnew]. split; [done|].
      apply list_elem_of_fmap in HX as (ad & -> & Had). eauto.
    + intros [Hnew (ad & Had & Hk)]. split; [|done].
      eexists. split; [|done]. apply list_elem_of_fmap. eauto.
Qed.
End normalization.

Lemma normalize_assets_shape_witness :
  let assets := [inl Scenario.unpartitioned_child] in
  let assets_defs :=
    [Scenario.unpartitioned_child;
     AssetGraph.stub_asset (env := Scenario.collaborators) ["parent"]] in
  AssetGraph.normalize_assets (env := Scenario.collaborators) assets = Ok assets_defs ∧
  ∃ resolved stub_keys,
    assets_defs = resolved ++ (AssetGraph.stub_asset (env := Scenario.collaborators) <$> stub_keys) ∧
    Forall2 (λ a ad, ∃ replacements,
               ad = AssetsDefinition.with_attributes
                      (AssetGraph.as_assets_def (env := Scenario.collaborators) a) replacements)
            assets resolved ∧
    NoDup stub_keys ∧
    ∀ k, k ∈ stub_keys ↔
         ((k ∉ all_asset_keys
                 (AssetGraph.as_assets_def (env := Scenario.collaborators) <$> assets)) ∧
          ∃ ad, ad ∈ resolved ∧ k ∈ AssetsDefinition.dependency_keys ad).
Proof.
  intros assets assets_defs.
  assert (AssetGraph.normalize_assets (env := Scenario.collaborators) assets = Ok assets_defs)
    as Hdefs by (vm_compute; reflexivity).
  split; [exact Hdefs|].
  exact (normalize_assets_shape (env := Scenario.collaborators) assets assets_defs Hdefs).
Defined.

(** ** The nodes of a constructed graph *)

Lemma for_fold_app {A S} (body : S → A → result S) acc l1 l2 :
  for_fold body acc (l1 ++ l2) = for_fold body acc l1 ≫= λ acc', for_fold body acc' l2.
Proof.
  revert acc. induction l1 as [|x l1 IH]; intros acc; simpl; [done|].
  destruct (body acc x); simpl; [apply IH|done].
Qed.

Section nodes_of_graph.
Context {env : Collaborators}.

(** The node of [k] comes from the last pair of the comprehension that has [k]. *)
Lemma asset_nodes_last dep_graph checks l1 l2 ad k acc m :
  for_fold (AssetGraph.add_asset_node dep_graph checks) acc (l1 ++ (ad, k) :: l2) = Ok m →
  (∀ ad', (ad', k) ∉ l2) →
  ∃ n, m !! k = Some n ∧ node_built dep_graph checks ad k n.
Proof.
  rewrite for_fold_app. intros (acc1 & _ & Hrun)%bind_Ok Hlast. simpl in Hrun.
  apply bind_Ok in Hrun as (acc2 & Hstep & Hrun).
  apply add_asset_node_Ok in Hstep as (n & Hbuilt & ->). simpl in *.
  exists n. split; [|done].
  assert (is_Some (m !! k)) as [n' Hn'].
  { apply (asset_nodes_dom _ _ _ _ _ _ Hrun). left. rewrite lookup_insert_eq. eauto. }
  destruct (asset_nodes_lookup _ _ _ _ _ _ _ Hrun Hn') as [Hacc|(ad' & Hin & _)].
  - rewrite lookup_insert_eq in Hacc. by rewrite Hn', <-Hacc.
  - by destruct (Hlast ad').
Qed.

Lemma defs_and_keys_app l1 l2 :
  AssetGraph.defs_and_keys (l1 ++ l2)
  = AssetGraph.defs_and_keys l1 ++ AssetGraph.defs_and_keys l2.
Proof. unfold AssetGraph.defs_and_keys. apply bind_app. Qed.

(** X6. In a constructed graph the node stored under a key carries that key, and
    its definition is a normalized definition that produces the key: the last
    one doing so, when several do. *)
Theorem node_of_key assets assets_defs g k n :
  AssetGraph.normalize_assets assets = Ok assets_defs →
  AssetGraph.from_assets assets = Ok g →
  AssetGraph._asset_nodes_by_key g !! k = Some n →
  AssetNode.key n = k ∧
  AssetNode.assets_def n ∈ assets_defs ∧
  k ∈ AssetsDefinition.keys (AssetNode.assets_def n) ∧
  ∀ before ad after,
    assets_defs = before ++ ad :: after →
    k ∈ AssetsDefinition.keys ad →
    (∀ ad', ad' ∈ after → k ∉ AssetsDefinition.keys ad') →
    AssetNode.assets_def n = ad.
Proof.
  intros Hdefs Hg Hn.
  destruct (constructed_node _ _ _ _ _ Hdefs Hg Hn) as (ad0 & Had0 & Hk0 & Hn0).
  split; [by rewrite Hn0|]. split; [by rewrite Hn0|]. split; [by rewrite Hn0|].
  intros before ad after -> Hk Hafter.
  pose proof Hg as (defs & bound & Hdefs' & Hnodes & _)%from_assets_Ok.
  rewrite Hdefs in Hdefs'. injection Hdefs' as <-.
  unfold AssetGraph.asset_nodes_by_key in Hnodes.
  rewrite defs_and_keys_app in Hnodes.
  change (before ++ ad :: after) with (before ++ [ad] ++ after) in Hnodes.
  assert (AssetGraph.defs_and_keys (ad :: after)
          = ((λ key, (ad, key)) <$> elements (AssetsDefinition.keys ad))
            ++ AssetGraph.defs_and_keys after) as Hcons by done.
  rewrite Hcons in Hnodes.
  assert (k ∈ elements (AssetsDefinition.keys ad)) as Hin by (by apply elem_of_elements).
  apply list_elem_of_split in Hin as (ks1 & ks2 & Hks).
  pose proof (NoDup_elements (AssetsDefinition.keys ad)) as Hnodup.
  rewrite Hks in Hnodes, Hnodup.
  rewrite fmap_app, fmap_cons, <-app_assoc, <-app_comm_cons, app_assoc in Hnodes.
  destruct (asset_nodes_last _ _ _ _ _ _ _ _ Hnodes) as (n' & Hn' & Hbuilt).
  { intros ad' [Hin|Hin]%elem_of_app.
    - apply list_elem_of_fmap in Hin as (k' & [= _ <-] & Hin).
      apply NoDup_app in Hnodup as (_ & _ & Hnodup).
      apply NoDup_cons in Hnodup as [Hnot _]. done.
    - apply elem_of_defs_and_keys in Hin as [Hin' Hk']. by apply (Hafter ad'). }
  rewrite Hn in Hn'. injection Hn' as <-.
  by destruct Hbuilt as (? & ? & _ & _ & ->).
Qed.

(** X7. A constructed graph has a node for exactly the keys that the normalized
    definitions produce: none is missing, and no other key has a node. *)
Theorem node_keys assets assets_defs g k :
  AssetGraph.normalize_assets assets = Ok assets_defs →
  AssetGraph.from_assets assets = Ok g →
  is_Some (AssetGraph._asset_nodes_by_key g !! k) ↔
  ∃ ad, ad ∈ assets_defs ∧ k ∈ AssetsDefinition.keys ad.
Proof.
  intros Hdefs Hg. rewrite (constructed_dom _ _ _ k Hdefs Hg).
  apply elem_of_all_asset_keys.
Qed.

(** X8. The check keys a node of a constructed graph holds are exactly the check
    keys of the normalized definitions that target the node's asset. *)
Theorem node_check_keys assets assets_defs g k n ck :
  AssetGraph.normalize_assets assets = Ok assets_defs →
  AssetGraph.from_assets assets = Ok g →
  AssetGraph._asset_nodes_by_key g !! k = Some n →
  ck ∈ AssetNode.check_keys n ↔
  ck_asset_key ck = k ∧ ∃ ad, ad ∈ assets_defs ∧ ck ∈ AssetsDefinition.check_keys ad.
Proof.
  intros Hdefs Hg Hn.
  destruct (constructed_node _ _ _ _ _ Hdefs Hg Hn) as (ad0 & _ & _ & ->).
  unfold AssetNode.check_keys; simpl. apply bind_check_keys_elem_of.
Qed.

(** X9. A check key of a constructed graph is only ever bound to an executable
    normalized definition that declares check specs and has the key among its
    check keys. *)
Theorem bound_check_key assets assets_defs g ck ad :
  AssetGraph.normalize_assets assets = Ok assets_defs →
  AssetGraph.from_assets assets = Ok g →
  AssetGraph._assets_defs_by_check_key g !! ck = Some ad →
  ad ∈ assets_defs ∧
  AssetsDefinition.is_executable ad = true ∧
  AssetsDefinition.check_specs_by_output_name ad ≠ [] ∧
  ck ∈ AssetsDefinition.check_keys ad.
Proof.
  intros Hdefs Hg Hck.
  destruct (constructed_check _ _ _ _ _ Hdefs Hg Hck) as (alias & Hreg & Hspecs & Hin).
  apply build_registered in Hreg as [? ?]. done.
Qed.
End nodes_of_graph.

Lemma node_of_key_witness :
  AssetNode.assets_def
    (ScenarioGraphs.node_of ScenarioGraphs.partitioned_parent_graph ["child"])
  = Scenario.unpartitioned_child.
Proof.
  pose (assets := [inl Scenario.daily_parent; inl Scenario.unpartitioned_child]
                  : list (AssetsDefinition.t + SourceAsset.t)).
  pose (g := ScenarioGraphs.partitioned_parent_graph).
  assert (AssetGraph.normalize_assets (env := Scenario.collaborators) assets
          = Ok [Scenario.daily_parent; Scenario.unpartitioned_child])
    as Hdefs by (vm_compute; reflexivity).
  assert (AssetGraph.from_assets (env := Scenario.collaborators) assets = Ok g)
    as Hg by (vm_compute; reflexivity).
  assert (AssetGraph._asset_nodes_by_key g !! ["child"]
          = Some (ScenarioGraphs.node_of g ["child"]))
    as Hn by (vm_compute; reflexivity).
  refine (proj2 (proj2 (proj2 (node_of_key (env := Scenario.collaborators)
            assets _ g ["child"] _ Hdefs Hg Hn)))
            [Scenario.daily_parent] Scenario.unpartitioned_child [] eq_refl _ _).
  - refine (bool_decide_unpack _ _). vm_compute. exact I.
  - intros ad' Hin. exact (False_ind _ (proj1 (elem_of_nil ad') Hin)).
Defined.

Lemma node_keys_witness :
  is_Some (AssetGraph._asset_nodes_by_key
             (ScenarioGraphs.graph_of
                (AssetGraph.from_assets (env := Scenario.collaborators)
                   [inl Scenario.unpartitioned_child])) !! ["parent"]).
Proof.
  pose (assets := [inl Scenario.unpartitioned_child]
                  : list (AssetsDefinition.t + SourceAsset.t)).
  pose (stub := AssetGraph.stub_asset (env := Scenario.collaborators) ["parent"]).
  assert (AssetGraph.normalize_assets (env := Scenario.collaborators) assets
          = Ok [Scenario.unpartitioned_child; stub])
    as Hdefs by (vm_compute; reflexivity).
  assert (AssetGraph.from_assets (env := Scenario.collaborators) assets
          = Ok (ScenarioGraphs.graph_of
                  (AssetGraph.from_assets (env := Scenario.collaborators) assets)))
    as Hg by (vm_compute; reflexivity).
  apply (proj2 (node_keys (env := Scenario.collaborators) assets _ _ ["parent"] Hdefs Hg)).
  exists stub. split.
  - right. left.
  - refine (bool_decide_unpack _ _). vm_compute. exact I.
Defined.

Lemma node_check_keys_witness :
  Scenario.check_1
    ∈ AssetNode.check_keys
        (ScenarioGraphs.node_of ScenarioGraphs.first_check_only_graph ["a"]).
Proof.
  pose (assets := [inl Scenario.first_check_only]
                  : list (AssetsDefinition.t + SourceAsset.t)).
  pose (g := ScenarioGraphs.first_check_only_graph).
  assert (AssetGraph.normalize_assets (env := Scenario.collaborators) assets
          = Ok [Scenario.first_check_only])
    as Hdefs by (vm_compute; reflexivity).
  assert (AssetGraph.from_assets (env := Scenario.collaborators) assets = Ok g)
    as Hg by (vm_compute; reflexivity).
  assert (AssetGraph._asset_nodes_by_key g !! ["a"] = Some (ScenarioGraphs.node_of g ["a"]))
    as Hn by (vm_compute; reflexivity).
  apply (proj2 (node_check_keys (env := Scenario.collaborators)
                  assets _ g ["a"] _ Scenario.check_1 Hdefs Hg Hn)).
  split; [reflexivity|]. exists Scenario.first_check_only. split; [left|].
  refine (bool_decide_unpack _ _). vm_compute. exact I.
Defined.

Lemma bound_check_key_witness :
  Scenario.first_foo ∈ [Scenario.first_foo; Scenario.second_foo; Scenario.foo_2] ∧
  AssetsDefinition.is_executable Scenario.first_foo = true ∧
  AssetsDefinition.check_specs_by_output_name Scenario.first_foo ≠ [] ∧
  mkAssetCheckKey ["a"] "c1" ∈ AssetsDefinition.check_keys Scenario.first_foo.
Proof.
  pose (assets := [inl Scenario.first_foo; inl Scenario.second_foo; inl Scenario.foo_2]
                  : list (AssetsDefinition.t + SourceAsset.t)).
  pose (g := ScenarioGraphs.alias_collision_graph).
  assert (AssetGraph.normalize_assets (env := Scenario.collaborators) assets
          = Ok [Scenario.first_foo; Scenario.second_foo; Scenario.foo_2])
    as Hdefs by (vm_compute; reflexivity).
  assert (AssetGraph.from_assets (env := Scenario.collaborators) assets = Ok g)
    as Hg by (vm_compute; reflexivity).
  assert (AssetGraph._assets_defs_by_check_key g !! mkAssetCheckKey ["a"] "c1"
          = Some Scenario.first_foo)
    as Hck by (vm_compute; reflexivity).
  exact (bound_check_key (env := Scenario.collaborators) assets _ g _ _ Hdefs Hg Hck).
Defined.

(** ** The loop over the registered definitions *)

Lemma for_each_succeeds {A} (body : A → result unit) l :
  (∃ u, for_each body l = Ok u) ↔ ∀ x, x ∈ l → ∃ u, body x = Ok u.
Proof.
  induction l as [|x l IH]; simpl.
  - split; [by intros _ ? ?%elem_of_nil|eauto].
  - split.
    + intros (u & Hrun) x' Hx'.
      destruct (body x) as [u'|e] eqn:Hx; simpl in Hrun; [|done].
      apply elem_of_cons in Hx' as [->|Hx']; [eauto|].
      apply (proj1 IH); eauto.
    + intros Hall. destruct (Hall x) as [u ->]; [left|]. simpl.
      apply (proj2 IH). intros x' Hx'. apply Hall. by right.
Qed.

(** A loop whose body fails or not whatever the accumulator is returns exactly
    when the body returns on every element. *)
Lemma for_fold_succeeds {A S} (body : S → A → result S) (P : A → Prop) l acc :
  (∀ acc x, x ∈ l → (∃ acc', body acc x = Ok acc') ↔ P x) →
  (∃ acc', for_fold body acc l = Ok acc') ↔ ∀ x, x ∈ l → P x.
Proof.
  revert acc. induction l as [|x l IH]; intros acc Hbody; simpl.
  - split; [by intros _ ? ?%elem_of_nil|eauto].
  - assert (∀ acc x', x' ∈ l → (∃ acc', body acc x' = Ok acc') ↔ P x') as Hbody'
      by (intros acc0 x' Hx'; apply Hbody; by right).
    split.
    + intros (acc' & Hrun) x' Hx'.
      destruct (body acc x) as [acc1|e] eqn:Hx; simpl in Hrun; [|done].
      apply elem_of_cons in Hx' as [->|Hx'].
      * apply (Hbody acc); [left|eauto].
      * apply (proj1 (IH acc1 Hbody')); eauto.
    + intros Hall.
      destruct (proj2 (Hbody acc x (list_elem_of_here _ _))) as [acc1 ->];
        [apply Hall; left|]. simpl.
      apply (proj2 (IH acc1 Hbody')). intros x' Hx'. apply Hall. by right.
Qed.

Section op_nodes.
Context {env : Collaborators}.

Lemma bind_output_Ok ad outer acc output acc' :
  bind_output ad outer acc output = Ok acc' ↔
  ∃ name inner destinations,
    resolve_output_to_origin (AssetsDefinition.node_def ad) output.1 outer
      = Ok (name, Some inner) ∧
    _resolve_output_to_destinations recursion_limit output.1
      (AssetsDefinition.node_def ad) outer = Ok destinations ∧
    acc' = <[mkNodeOutputHandle inner name := output.2]> acc.
Proof.
  unfold bind_output. split.
  - intros ([name [inner|]] & Horigin & Hrun)%bind_Ok; simpl in Hrun; [|done].
    apply bind_Ok in Hrun as (destinations & Hdest & [= <-]).
    exists name, inner, destinations. done.
  - intros (name & inner & destinations & -> & Hdest & ->). simpl.
    by rewrite Hdest.
Qed.

Lemma bind_outputs_lookup ad outer outputs acc acc' h k :
  for_fold (bind_output ad outer) acc outputs = Ok acc' →
  acc' !! h = Some k →
  acc !! h = Some k ∨
  ∃ output name inner,
    output ∈ outputs ∧ output.2 = k ∧
    resolve_output_to_origin (AssetsDefinition.node_def ad) output.1 outer
      = Ok (name, Some inner) ∧
    h = mkNodeOutputHandle inner name.
Proof.
  revert acc. induction outputs as [|output outputs IH]; intros acc; simpl.
  - intros [= <-]. by left.
  - intros (acc1 & Hstep & Hrun)%bind_Ok Hh.
    apply bind_output_Ok in Hstep as (name & inner & destinations & Horigin & _ & ->).
    destruct (IH _ Hrun Hh) as [Hacc|(output' & name' & inner' & Hin & ? & ? & ?)].
    + destruct (decide (mkNodeOutputHandle inner name = h)) as [<-|Hne].
      * rewrite lookup_insert_eq in Hacc. injection Hacc as <-.
        right. exists output, name, inner. split; [left|done].
      * rewrite lookup_insert_ne in Hacc by done. by left.
    + right. exists output', name', inner'. split; [by right|done].
Qed.

Lemma bind_outputs_dom ad outer outputs acc acc' :
  for_fold (bind_output ad outer) acc outputs = Ok acc' →
  (∀ h, is_Some (acc !! h) → is_Some (acc' !! h)) ∧
  ∀ output, output ∈ outputs →
    ∃ name inner,
      resolve_output_to_origin (AssetsDefinition.node_def ad) output.1 outer
        = Ok (name, Some inner) ∧
      is_Some (acc' !! mkNodeOutputHandle inner name).
Proof.
  revert acc. induction outputs as [|output outputs IH]; intros acc; simpl.
  - intros [= <-]. split; [done|]. by intros ? ?%elem_of_nil.
  - intros (acc1 & Hstep & Hrun)%bind_Ok.
    apply bind_output_Ok in Hstep as (name & inner & destinations & Horigin & _ & ->).
    destruct (IH _ Hrun) as [Hmono Hall]. split.
    + intros h Hh. apply Hmono.
      destruct (decide (mkNodeOutputHandle inner name = h)) as [<-|Hne].
      * rewrite lookup_insert_eq. eauto.
      * by rewrite lookup_insert_ne.
    + intros output' [->|Hin]%elem_of_cons; [|by apply Hall].
      exists name, inner. split; [done|]. apply Hmono. rewrite lookup_insert_eq. eauto.
Qed.

(** The output part of one iteration of the second loop. *)
Lemma bind_op_node_outputs st item st' :
  AssetGraph.bind_op_node st item = Ok st' →
  for_fold (bind_output item.2 (mkNodeHandle item.1 None)) st.1
    (AssetsDefinition.node_keys_by_output_name item.2) = Ok st'.1.
Proof.
  unfold AssetGraph.bind_op_node. intros Hrun.
  apply bind_Ok in Hrun as ([] & _ & Hrun).
  apply bind_Ok in Hrun as (outs & Houts & Hrun).
  assert (st'.1 = outs) as ->.
  { destruct (AssetsDefinition.check_specs_by_output_name item.2) as [|s specs].
    - by injection Hrun as <-.
    - by apply bind_Ok in Hrun as ([] & _ & [= <-]). }
  exact Houts.
Qed.

Lemma bound_outputs_lookup items st st' h k :
  for_fold AssetGraph.bind_op_node st items = Ok st' →
  st'.1 !! h = Some k →
  st.1 !! h = Some k ∨ output_origin items h k.
Proof.
  revert st. induction items as [|item items IH]; intros st; simpl.
  - intros [= <-]. by left.
  - intros (st1 & Hstep & Hrun)%bind_Ok Hh.
    destruct (IH _ Hrun Hh) as [Hst1|(alias & ad & output & name & inner & Hin & ?)].
    + apply bind_op_node_outputs in Hstep.
      destruct (bind_outputs_lookup _ _ _ _ _ _ _ Hstep Hst1)
        as [?|(output & name & inner & Hin & ? & ? & ?)]; [by left|].
      right. exists item.1, item.2, output, name, inner.
      split; [destruct item; left|done].
    + right. exists alias, ad, output, name, inner. split; [by right|done].
Qed.

Lemma bound_outputs_dom items st st' :
  for_fold AssetGraph.bind_op_node st items = Ok st' →
  (∀ h, is_Some (st.1 !! h) → is_Some (st'.1 !! h)) ∧
  ∀ alias ad output, (alias, ad) ∈ items →
    output ∈ AssetsDefinition.node_keys_by_output_name ad →
    ∃ name inner,
      resolve_output_to_origin (AssetsDefinition.node_def ad) output.1
        (mkNodeHandle alias None) = Ok (name, Some inner) ∧
      is_Some (st'.1 !! mkNodeOutputHandle inner name).
Proof.
  revert st. induction items as [|item items IH]; intros st; simpl.
  - intros [= <-]. split; [done|]. by intros ? ? ? ?%elem_of_nil.
  - intros (st1 & Hstep & Hrun)%bind_Ok.
    apply bind_op_node_outputs in Hstep.
    destruct (bind_outputs_dom _ _ _ _ _ Hstep) as [Hmono1 Hall1].
    destruct (IH _ Hrun) as [Hmono Hall]. split.
    + intros h Hh. by apply Hmono, Hmono1.
    + intros alias ad output [<-|Hin]%elem_of_cons Hout; [|by eapply Hall].
      destruct (Hall1 output Hout) as (name & inner & Horigin & Hsome).
      exists name, inner. split; [done|]. by apply Hmono.
Qed.

(** X11. The output-handle mapping of a constructed graph holds exactly the
    origins of the outputs of the definitions registered under an op node
    name, each mapped to the asset key of an output with that origin. *)
Theorem output_handles assets assets_defs g h :
  AssetGraph.normalize_assets assets = Ok assets_defs →
  AssetGraph.from_assets assets = Ok g →
  (is_Some (AssetGraph._asset_keys_by_node_output_handle g !! h) ↔
   ∃ alias ad output name inner,
     (alias, ad) ∈ AssetGraph._build_assets_defs_by_op_node_names assets_defs ∧
     output ∈ AssetsDefinition.node_keys_by_output_name ad ∧
     resolve_output_to_origin (AssetsDefinition.node_def ad) output.1
       (mkNodeHandle alias None) = Ok (name, Some inner) ∧
     h = mkNodeOutputHandle inner name) ∧
  ∀ k, AssetGraph._asset_keys_by_node_output_handle g !! h = Some k →
    ∃ alias ad output name inner,
      (alias, ad) ∈ AssetGraph._build_assets_defs_by_op_node_names assets_defs ∧
      output ∈ AssetsDefinition.node_keys_by_output_name ad ∧ output.2 = k ∧
      resolve_output_to_origin (AssetsDefinition.node_def ad) output.1
        (mkNodeHandle alias None) = Ok (name, Some inner) ∧
      h = mkNodeOutputHandle inner name.
Proof.
  intros Hdefs (defs & bound & Hdefs' & _ & Hbound & _ & Houts)%from_assets_Ok.
  rewrite Hdefs in Hdefs'. injection Hdefs' as <-. rewrite Houts.
  assert (∀ k, bound.1 !! h = Some k →
            output_origin (AssetGraph._build_assets_defs_by_op_node_names assets_defs) h k)
    as Hvalue.
  { intros k Hk. destruct (bound_outputs_lookup _ _ _ _ _ Hbound Hk) as [Hempty|?]; [|done].
    simpl in Hempty. by rewrite lookup_empty in Hempty. }
  split; [|exact Hvalue]. split.
  - intros [k Hk].
    destruct (Hvalue k Hk) as (alias & ad & output & name & inner & ? & ? & _ & ? & ?).
    exists alias, ad, output, name, inner. done.
  - intros (alias & ad & output & name & inner & Hin & Hout & Horigin & ->).
    destruct (bound_outputs_dom _ _ _ Hbound) as [_ Hall].
    destruct (Hall alias ad output Hin Hout) as (name' & inner' & Horigin' & Hsome).
    rewrite Horigin in Horigin'. by injection Horigin' as <- <-.
Qed.

(** X12. On a constructed graph [get_for_node_output] returns the node of the
    asset key that an output with this origin has in a registered
    definition; it raises nothing but [KeyError], and it returns a node for
    every handle of the mapping when each registered definition produces the
    keys of all outputs of its node. *)
Theorem get_for_node_output_node assets assets_defs g h :
  AssetGraph.normalize_assets assets = Ok assets_defs →
  AssetGraph.from_assets assets = Ok g →
  (∀ n, AssetGraph.get_for_node_output g h = Ok n →
     AssetGraph._asset_keys_by_node_output_handle g !! h = Some (AssetNode.key n) ∧
     AssetGraph._asset_nodes_by_key g !! AssetNode.key n = Some n ∧
     ∃ alias ad output,
       (alias, ad) ∈ AssetGraph._build_assets_defs_by_op_node_names assets_defs ∧
       output ∈ AssetsDefinition.node_keys_by_output_name ad ∧
       output.2 = AssetNode.key n) ∧
  (∀ e, AssetGraph.get_for_node_output g h = Raise e → e = KeyError) ∧
  ((∀ alias ad output,
      (alias, ad) ∈ AssetGraph._build_assets_defs_by_op_node_names assets_defs →
      output ∈ AssetsDefinition.node_keys_by_output_name ad →
      output.2 ∈ AssetsDefinition.keys ad) →
   is_Some (AssetGraph._asset_keys_by_node_output_handle g !! h) →
   ∃ n, AssetGraph.get_for_node_output g h = Ok n).
Proof.
  intros Hdefs Hg.
  pose proof Hg as (defs & bound & Hdefs' & _ & Hbound & _ & Houts)%from_assets_Ok.
  rewrite Hdefs in Hdefs'. injection Hdefs' as <-.
  assert (∀ k, AssetGraph._asset_keys_by_node_output_handle g !! h = Some k →
            output_origin (AssetGraph._build_assets_defs_by_op_node_names assets_defs) h k)
    as Hvalue.
  { rewrite Houts. intros k Hk.
    destruct (bound_outputs_lookup _ _ _ _ _ Hbound Hk) as [Hempty|?]; [|done].
    simpl in Hempty. by rewrite lookup_empty in Hempty. }
  unfold AssetGraph.get_for_node_output, AssetGraph.get. split; [|split].
  - intros n (k & Hk%subscript_Ok & Hn%subscript_Ok)%bind_Ok.
    destruct (constructed_node _ _ _ _ _ Hdefs Hg Hn) as (ad0 & _ & _ & Hn0).
    assert (AssetNode.key n = k) as Hkey by (by rewrite Hn0). rewrite Hkey.
    split; [done|]. split; [done|].
    destruct (Hvalue k Hk) as (alias & ad & output & name & inner & ? & ? & ? & _).
    exists alias, ad, output. done.
  - intros e. unfold subscript.
    destruct (AssetGraph._asset_keys_by_node_output_handle g !! h) as [k|]; simpl;
      [|congruence].
    destruct (AssetGraph._asset_nodes_by_key g !! k); congruence.
  - intros Hproduced [k Hk].
    destruct (Hvalue k Hk) as (alias & ad & output & name & inner & Hin & Hout & <- & _).
    assert (is_Some (AssetGraph._asset_nodes_by_key g !! output.2)) as [n Hn].
    { apply (constructed_dom _ _ _ _ Hdefs Hg). apply elem_of_all_asset_keys.
      exists ad. split; [|by eapply Hproduced].
      by apply build_registered in Hin as [? _]. }
    exists n. apply bind_Ok. exists output.2.
    split; by apply subscript_Ok.
Qed.

(** One iteration of the second loop returns exactly when every call it makes
    returns and every origin has a node handle. *)
Lemma bind_op_node_succeeds st item :
  (∃ st', AssetGraph.bind_op_node st item = Ok st') ↔
  (∀ input, input ∈ AssetsDefinition.node_keys_by_input_name item.2 →
     ∃ destinations,
       resolve_input_to_destinations (AssetsDefinition.node_def item.2)
         (mkNodeInputHandle (mkNodeHandle item.1 None) input.1) = Ok destinations) ∧
  (∀ output, output ∈ AssetsDefinition.node_keys_by_output_name item.2 →
     (∃ name inner,
        resolve_output_to_origin (AssetsDefinition.node_def item.2) output.1
          (mkNodeHandle item.1 None) = Ok (name, Some inner)) ∧
     ∃ destinations,
       _resolve_output_to_destinations recursion_limit output.1
         (AssetsDefinition.node_def item.2) (mkNodeHandle item.1 None) = Ok destinations) ∧
  (∀ check, check ∈ AssetsDefinition.check_specs_by_output_name item.2 →
     ∃ name inner,
       resolve_output_to_origin (AssetsDefinition.node_def item.2) check.1
         (mkNodeHandle item.1 None) = Ok (name, Some inner)).
Proof.
  set (outer := mkNodeHandle item.1 None).
  set (node_def := AssetsDefinition.node_def item.2).
  assert ((∃ u, for_each
             (λ input : string * AssetKey,
                resolve_input_to_destinations node_def (mkNodeInputHandle outer input.1);;
                Ok ())
             (AssetsDefinition.node_keys_by_input_name item.2) = Ok u) ↔
          ∀ input, input ∈ AssetsDefinition.node_keys_by_input_name item.2 →
            ∃ destinations,
              resolve_input_to_destinations node_def (mkNodeInputHandle outer input.1)
              = Ok destinations) as Hinputs.
  { rewrite for_each_succeeds. apply forall_proper; intros input.
    apply forall_proper; intros _.
    destruct (resolve_input_to_destinations node_def (mkNodeInputHandle outer input.1));
      simpl; split; eauto; by intros [? ?]. }
  assert (∀ acc, (∃ acc', for_fold (bind_output item.2 outer) acc
                     (AssetsDefinition.node_keys_by_output_name item.2) = Ok acc') ↔
          ∀ output, output ∈ AssetsDefinition.node_keys_by_output_name item.2 →
            (∃ name inner,
               resolve_output_to_origin node_def output.1 outer = Ok (name, Some inner)) ∧
            ∃ destinations,
              _resolve_output_to_destinations recursion_limit output.1 node_def outer
              = Ok destinations) as Houtputs.
  { intros acc. apply for_fold_succeeds. intros acc0 output _. split.
    - intros (acc' & (name & inner & destinations & ? & ? & _)%bind_output_Ok). eauto.
    - intros ((name & inner & Horigin) & (destinations & Hdest)).
      eexists. apply bind_output_Ok. eauto 10. }
  assert (∀ specs, (∃ u, for_each
             (λ check : string * AssetCheckSpec,
                origin ← resolve_output_to_origin node_def check.1 outer;
                not_none origin.2;; Ok ()) specs = Ok u) ↔
          ∀ check, check ∈ specs →
            ∃ name inner, resolve_output_to_origin node_def check.1 outer
                          = Ok (name, Some inner)) as Hchecks.
  { intros specs. rewrite for_each_succeeds. apply forall_proper; intros check.
    apply forall_proper; intros _.
    destruct (resolve_output_to_origin node_def check.1 outer) as [[name [inner|]]|e];
      simpl; split;
      first [by eauto | by intros [? ?] | by intros (? & ? & ?)]. }
  unfold AssetGraph.bind_op_node. fold outer node_def.
  change (for_fold _ st.1 (AssetsDefinition.node_keys_by_output_name item.2))
    with (for_fold (bind_output item.2 outer) st.1
            (AssetsDefinition.node_keys_by_output_name item.2)).
  rewrite <-Hinputs, <-(Houtputs st.1), <-Hchecks. split.
  - intros (st' & Hrun).
    apply bind_Ok in Hrun as (u & Hu & Hrun).
    apply bind_Ok in Hrun as (outs & Houts & Hrun).
    split; [eauto|]. split; [eauto|].
    destruct (AssetsDefinition.check_specs_by_output_name item.2) as [|s specs] eqn:Hspecs.
    + by exists ().
    + apply bind_Ok in Hrun as (u' & Hu' & _). eauto.
  - intros ((u & ->) & (outs & ->) & (u' & Hu')). simpl.
    destruct (AssetsDefinition.check_specs_by_output_name item.2) as [|s specs] eqn:Hspecs.
    + eauto.
    + simpl in Hu' |- *. rewrite Hu'. simpl. eauto.
Qed.

(** X13. Graph construction returns a graph exactly when normalization returns
    and, for every definition registered under an op node name, each input and
    each output of its node resolves, each output and each declared check has
    an origin with a node handle, and the destinations of each output are
    found within the interpreter's call depth. *)
Theorem from_assets_succeeds_iff (assets : list (AssetsDefinition.t + SourceAsset.t)) :
  (∃ g, AssetGraph.from_assets assets = Ok g) ↔
  ∃ assets_defs,
    AssetGraph.normalize_assets assets = Ok assets_defs ∧
    ∀ alias ad,
      (alias, ad) ∈ AssetGraph._build_assets_defs_by_op_node_names assets_defs →
      (∀ input, input ∈ AssetsDefinition.node_keys_by_input_name ad →
         ∃ destinations,
           resolve_input_to_destinations (AssetsDefinition.node_def ad)
             (mkNodeInputHandle (mkNodeHandle alias None) input.1) = Ok destinations) ∧
      (∀ output, output ∈ AssetsDefinition.node_keys_by_output_name ad →
         (∃ name inner,
            resolve_output_to_origin (AssetsDefinition.node_def ad) output.1
              (mkNodeHandle alias None) = Ok (name, Some inner)) ∧
         ∃ destinations,
           _resolve_output_to_destinations recursion_limit output.1
             (AssetsDefinition.node_def ad) (mkNodeHandle alias None) = Ok destinations) ∧
      (∀ check, check ∈ AssetsDefinition.check_specs_by_output_name ad →
         ∃ name inner,
           resolve_output_to_origin (AssetsDefinition.node_def ad) check.1
             (mkNodeHandle alias None) = Ok (name, Some inner)).
Proof.
  assert (∀ assets_defs,
    (∃ st', for_fold AssetGraph.bind_op_node (∅, ∅)
              (AssetGraph._build_assets_defs_by_op_node_names assets_defs) = Ok st') ↔
    ∀ item, item ∈ AssetGraph._build_assets_defs_by_op_node_names assets_defs →
      (∀ input, input ∈ AssetsDefinition.node_keys_by_input_name item.2 →
         ∃ destinations,
           resolve_input_to_destinations (AssetsDefinition.node_def item.2)
             (mkNodeInputHandle (mkNodeHandle item.1 None) input.1) = Ok destinations) ∧
      (∀ output, output ∈ AssetsDefinition.node_keys_by_output_name item.2 →
         (∃ name inner,
            resolve_output_to_origin (AssetsDefinition.node_def item.2) output.1
              (mkNodeHandle item.1 None) = Ok (name, Some inner)) ∧
         ∃ destinations,
           _resolve_output_to_destinations recursion_limit output.1
             (AssetsDefinition.node_def item.2) (mkNodeHandle item.1 None)
           = Ok destinations) ∧
      (∀ check, check ∈ AssetsDefinition.check_specs_by_output_name item.2 →
         ∃ name inner,
           resolve_output_to_origin (AssetsDefinition.node_def item.2) check.1
             (mkNodeHandle item.1 None) = Ok (name, Some inner))) as Hloop.
  { intros assets_defs. apply for_fold_succeeds. intros st item _.
    apply bind_op_node_succeeds. }
  split.
  - intros (g & (assets_defs & bound & Hdefs & _ & Hbound & _)%from_assets_Ok).
    exists assets_defs. split; [done|]. intros alias ad Hin.
    apply (proj1 (Hloop assets_defs) (ex_intro _ bound Hbound) (alias, ad) Hin).
  - intros (assets_defs & Hdefs & Hall).
    destruct (asset_nodes_by_key_Ok assets_defs (AssetGraph.bind_check_keys assets_defs).2)
      as [nodes Hnodes].
    destruct (proj2 (Hloop assets_defs)) as [bound Hbound].
    { intros [alias ad] Hin. by apply Hall. }
    exists (AssetGraph.mk nodes bound.2 bound.1).
    apply from_assets_Ok. exists assets_defs, bound. done.
Qed.

(** X14. When no normalized definition is executable, graph construction
    returns a graph, and the graph binds no check key and maps no output
    handle, whatever check keys the definitions have. *)
Theorem from_assets_unexecutable assets assets_defs :
  AssetGraph.normalize_assets assets = Ok assets_defs →
  (∀ ad, ad ∈ assets_defs → AssetsDefinition.is_executable ad = false) →
  ∃ g, AssetGraph.from_assets assets = Ok g ∧
       AssetGraph._assets_defs_by_check_key g = ∅ ∧
       AssetGraph._asset_keys_by_node_output_handle g = ∅.
Proof.
  intros Hdefs Hnone.
  assert (AssetGraph._build_assets_defs_by_op_node_names assets_defs = []) as Hempty.
  { destruct (AssetGraph._build_assets_defs_by_op_node_names assets_defs)
      as [|[alias ad] items] eqn:Hitems; [done|].
    assert ((alias, ad) ∈ AssetGraph._build_assets_defs_by_op_node_names assets_defs)
      as [Hin Hexec]%build_registered by (rewrite Hitems; left).
    rewrite (Hnone ad Hin) in Hexec. done. }
  destruct (asset_nodes_by_key_Ok assets_defs (AssetGraph.bind_check_keys assets_defs).2)
    as [nodes Hnodes].
  exists (AssetGraph.mk nodes ∅ ∅). split; [|done].
  apply from_assets_Ok. exists assets_defs, (∅, ∅). rewrite Hempty. done.
Qed.

(** X10. The check keys a constructed graph reports contain every bound check
    key, and each of them is a check key of some normalized definition. *)
Theorem asset_check_keys_bounds assets assets_defs g ck :
  AssetGraph.normalize_assets assets = Ok assets_defs →
  AssetGraph.from_assets assets = Ok g →
  (is_Some (AssetGraph._assets_defs_by_check_key g !! ck) → ck ∈ AssetGraph.asset_check_keys g) ∧
  (ck ∈ AssetGraph.asset_check_keys g →
   ∃ ad, ad ∈ assets_defs ∧ ck ∈ AssetsDefinition.check_keys ad).
Proof.
  intros Hdefs Hg. unfold AssetGraph.asset_check_keys. split.
  - intros [ad Had].
    destruct (constructed_check _ _ _ _ _ Hdefs Hg Had) as (alias & _ & _ & Hck).
    apply elem_of_union. right. apply elem_of_union_list.
    exists (AssetsDefinition.check_keys ad). split; [|done].
    apply list_elem_of_fmap. exists ad. split; [done|].
    apply list_elem_of_fmap. exists (ck, ad). split; [done|].
    by apply elem_of_map_to_list.
  - intros [Hck|Hck]%elem_of_union;
      apply elem_of_union_list in Hck as (X & HX & Hck);
      apply list_elem_of_fmap in HX as (x & -> & Hx);
      apply list_elem_of_fmap in Hx as ([k' y] & -> & Hy%elem_of_map_to_list); simpl in *.
    + destruct (constructed_node _ _ _ _ _ Hdefs Hg Hy) as (ad & Had & _ & ->).
      simpl in Hck. eauto.
    + destruct (constructed_check _ _ _ _ _ Hdefs Hg Hy) as (alias & Hreg & _).
      apply build_registered in Hreg as [Hin _]. eauto.
Qed.
End op_nodes.

Lemma output_handles_witness :
  let assets_defs := [Scenario.first_foo; Scenario.second_foo; Scenario.foo_2] in
  ∃ alias ad output name inner,
    (alias, ad) ∈ AssetGraph._build_assets_defs_by_op_node_names assets_defs ∧
    output ∈ AssetsDefinition.node_keys_by_output_name ad ∧ output.2 = ["a"] ∧
    resolve_output_to_origin (Collaborators := Scenario.collaborators)
      (AssetsDefinition.node_def ad) output.1 (mkNodeHandle alias None)
      = Ok (name, Some inner) ∧
    mkNodeOutputHandle (mkNodeHandle "foo" None) "a" = mkNodeOutputHandle inner name.
Proof.
  intros assets_defs.
  pose (assets := [inl Scenario.first_foo; inl Scenario.second_foo; inl Scenario.foo_2]
                  : list (AssetsDefinition.t + SourceAsset.t)).
  pose (g := ScenarioGraphs.alias_collision_graph).
  assert (AssetGraph.normalize_assets (env := Scenario.collaborators) assets = Ok assets_defs)
    as Hdefs by (vm_compute; reflexivity).
  assert (AssetGraph.from_assets (env := Scenario.collaborators) assets = Ok g)
    as Hg by (vm_compute; reflexivity).
  assert (AssetGraph._asset_keys_by_node_output_handle g
            !! mkNodeOutputHandle (mkNodeHandle "foo" None) "a" = Some ["a"])
    as Hh by (vm_compute; reflexivity).
  exact (proj2 (output_handles (env := Scenario.collaborators) assets assets_defs g _
                  Hdefs Hg) ["a"] Hh).
Defined.

Lemma get_for_node_output_node_witness :
  let g := ScenarioGraphs.alias_collision_graph in
  let n := ScenarioGraphs.node_of g ["a"] in
  AssetGraph._asset_keys_by_node_output_handle g
    !! mkNodeOutputHandle (mkNodeHandle "foo" None) "a" = Some (AssetNode.key n) ∧
  AssetGraph._asset_nodes_by_key g !! AssetNode.key n = Some n ∧
  ∃ alias ad output,
    (alias, ad) ∈ AssetGraph._build_assets_defs_by_op_node_names
                    [Scenario.first_foo; Scenario.second_foo; Scenario.foo_2] ∧
    output ∈ AssetsDefinition.node_keys_by_output_name ad ∧
    output.2 = AssetNode.key n.
Proof.
  intros g n.
  pose (assets := [inl Scenario.first_foo; inl Scenario.second_foo; inl Scenario.foo_2]
                  : list (AssetsDefinition.t + SourceAsset.t)).
  assert (AssetGraph.normalize_assets (env := Scenario.collaborators) assets
          = Ok [Scenario.first_foo; Scenario.second_foo; Scenario.foo_2])
    as Hdefs by (vm_compute; reflexivity).
  assert (AssetGraph.from_assets (env := Scenario.collaborators) assets = Ok g)
    as Hg by (vm_compute; reflexivity).
  assert (AssetGraph.get_for_node_output g (mkNodeOutputHandle (mkNodeHandle "foo" None) "a")
          = Ok n)
    as Hn by (vm_compute; reflexivity).
  exact (proj1 (get_for_node_output_node (env := Scenario.collaborators) assets _ g _
                  Hdefs Hg) n Hn).
Defined.

Lemma from_assets_unexecutable_witness :
  ∃ g, AssetGraph.from_assets (env := Scenario.collaborators)
         [inr (SourceAsset.mk ["raw"] None false)] = Ok g ∧
       AssetGraph._assets_defs_by_check_key g = ∅ ∧
       AssetGraph._asset_keys_by_node_output_handle g = ∅.
Proof.
  pose (external := AssetsDefinition.external_asset_from_spec (AssetSpec.mk ["raw"] ∅ ∅)).
  assert (AssetGraph.normalize_assets (env := Scenario.collaborators)
            [inr (SourceAsset.mk ["raw"] None false)] = Ok [external])
    as Hdefs by (vm_compute; reflexivity).
  refine (from_assets_unexecutable (env := Scenario.collaborators) _ _ Hdefs _).
  intros ad Hin. apply list_elem_of_singleton in Hin. rewrite Hin. reflexivity.
Defined.

Lemma asset_check_keys_bounds_witness :
  mkAssetCheckKey ["a"] "c1"
    ∈ AssetGraph.asset_check_keys ScenarioGraphs.alias_collision_graph.
Proof.
  pose (assets := [inl Scenario.first_foo; inl Scenario.second_foo; inl Scenario.foo_2]
                  : list (AssetsDefinition.t + SourceAsset.t)).
  pose (g := ScenarioGraphs.alias_collision_graph).
  assert (AssetGraph.normalize_assets (env := Scenario.collaborators) assets
          = Ok [Scenario.first_foo; Scenario.second_foo; Scenario.foo_2])
    as Hdefs by (vm_compute; reflexivity).
  assert (AssetGraph.from_assets (env := Scenario.collaborators) assets = Ok g)
    as Hg by (vm_compute; reflexivity).
  refine (proj1 (asset_check_keys_bounds (env := Scenario.collaborators) assets _ g _
                   Hdefs Hg) _).
  exists Scenario.first_foo. vm_compute. reflexivity.
Defined.

(** ** Output resolution relative to the handle *)

Lemma NodeHandle_under_snoc names name handle :
  NodeHandle_under (names ++ [name]) handle
  = NodeHandle_under names (mkNodeHandle name (Some handle)).
Proof. unfold NodeHandle_under. by rewrite foldr_app. Qed.

Lemma NodeHandle_under_path names handle :
  NodeHandle_path (NodeHandle_under names handle) = names ++ NodeHandle_path handle.
Proof. induction names as [|name names IH]; simpl; [done|]. by rewrite IH. Qed.

Lemma input_handles_under_app paths1 paths2 handle :
  input_handles_under (paths1 ++ paths2) handle
  = input_handles_under paths1 handle ++ input_handles_under paths2 handle.
Proof. unfold input_handles_under. apply fmap_app. Qed.

Lemma input_handles_under_inner paths name handle :
  input_handles_under paths (mkNodeHandle name (Some handle))
  = input_handles_under ((λ p, (p.1 ++ [name], p.2)) <$> paths) handle.
Proof.
  unfold input_handles_under. rewrite <-list_fmap_compose.
  apply list_fmap_ext. intros _ p _. simpl. by rewrite NodeHandle_under_snoc.
Qed.

Lemma input_handles_under_siblings (inputs : list NodeInput) handle :
  ((λ input_handle,
      mkNodeInputHandle (mkNodeHandle (ni_node_name input_handle) (Some handle))
                        (ni_input_name input_handle)) <$> inputs)
  = input_handles_under ((λ i, ([ni_node_name i], ni_input_name i)) <$> inputs) handle.
Proof. unfold input_handles_under. by rewrite <-list_fmap_compose. Qed.

Section resolve_mappings_relative.
Context (recur : string → NodeDefinition → NodeHandle → result (list NodeInputHandle)).
Context (output_name : string) (nodes : list (string * NodeDefinition))
        (ds : DependencyStructure).

Lemma resolve_mappings_relative mappings acc_paths :
  (∀ o d, relative (recur o d)) →
  Forall (λ p, p.1 ≠ []) acc_paths →
  relative (λ handle,
    resolve_mappings recur output_name nodes ds handle mappings
      (input_handles_under acc_paths handle)).
Proof.
  intros Hrecur. revert acc_paths.
  induction mappings as [|m mappings IH]; intros acc_paths Hacc.
  - right. exists acc_paths. done.
  - cbn [resolve_mappings]. case_decide as Hname; [by apply IH|].
    destruct (node_named nodes (op_node_name (maps_from m))) as [n|e] eqn:Hn; simpl.
    2:{ left. exists e. apply node_named_raises in Hn. split; [by left|done]. }
    destruct (Hrecur (op_output_name (maps_from m)) n.2)
      as [(e & He & Hraise)|(inner & Hinner & Hok)].
    { left. exists e. split; [done|]. intros handle. by rewrite Hraise. }
    destruct (output_def_named n.2 (op_output_name (maps_from m))) as [output_def|e] eqn:Hout.
    2:{ left. exists e. apply output_def_named_raises in Hout. split; [by left|].
        intros handle. by rewrite Hok. }
    set (siblings := default []
           (output_to_downstream_inputs_for_node ds (op_node_name (maps_from m))
              !! output_def)).
    destruct (IH (acc_paths
                  ++ ((λ p, (p.1 ++ [op_node_name (maps_from m)], p.2)) <$> inner)
                  ++ ((λ i, ([ni_node_name i], ni_input_name i)) <$> siblings)))
      as [(e & He & Hraise)|(paths & Hpaths & Hrun)].
    { apply Forall_app. split; [done|]. apply Forall_app. split.
      - apply Forall_fmap, Forall_forall. intros p _. simpl. by destruct p.1.
      - apply Forall_fmap, Forall_forall. intros i _. done. }
    + left. exists e. split; [done|]. intros handle. rewrite Hok. simpl.
      rewrite input_handles_under_inner, input_handles_under_siblings,
        <-!input_handles_under_app. apply Hraise.
    + right. exists paths. split; [done|]. intros handle. rewrite Hok. simpl.
      rewrite input_handles_under_inner, input_handles_under_siblings,
        <-!input_handles_under_app. apply Hrun.
Qed.
End resolve_mappings_relative.

(** X15. The handle passed to [_resolve_output_to_destinations] only says where
    the result starts: either the call raises the same exception for every
    handle, an [InvariantViolation] or a [RecursionError], or there are
    relative paths, none of them empty, such that for every handle the result
    is the list of the input handles at these paths below the handle. *)
Theorem resolve_output_to_destinations_relative
    (calls : nat) (output_name : string) (node_def : NodeDefinition) :
  (∃ e, (e = InvariantViolation ∨ e = RecursionError) ∧
        ∀ handle, _resolve_output_to_destinations calls output_name node_def handle
                  = Raise e) ∨
  ∃ paths : list (list string * string),
    Forall (λ p, p.1 ≠ []) paths ∧
    ∀ handle,
      _resolve_output_to_destinations calls output_name node_def handle
      = Ok ((λ p, mkNodeInputHandle (NodeHandle_under p.1 handle) p.2) <$> paths).
Proof.
  change (relative (_resolve_output_to_destinations calls output_name node_def)).
  revert output_name node_def.
  induction calls as [|calls IH]; intros o d.
  - left. exists RecursionError. split; [by right|done].
  - destruct d as [name outs|name nodes ds mappings].
    + right. exists []. done.
    + exact (resolve_mappings_relative _ o nodes ds mappings [] IH (Forall_nil_2 _)).
Qed.

(** ** Execution sets of a node *)

(** X17. For a node whose key is among the keys of its definition, the asset
    keys of [execution_set_asset_and_check_keys] are the keys of
    [execution_set_asset_keys], the node's own key is one of them, and check
    keys belong to the execution set only when the definition cannot be
    subset. *)
Theorem execution_sets_agree (n : AssetNode.t) :
  AssetNode.key n ∈ AssetsDefinition.keys (AssetNode.assets_def n) →
  AssetNode.key n ∈ AssetNode.execution_set_asset_keys n ∧
  (∀ k, inl k ∈ AssetNode.execution_set_asset_and_check_keys n ↔
        k ∈ AssetNode.execution_set_asset_keys n) ∧
  (∀ ck, inr ck ∈ AssetNode.execution_set_asset_and_check_keys n ↔
         AssetsDefinition.can_subset (AssetNode.assets_def n) = false ∧
         ck ∈ AssetsDefinition.check_keys (AssetNode.assets_def n)).
Proof.
  intros Hkey.
  unfold AssetNode.execution_set_asset_keys, AssetNode.execution_set_asset_and_check_keys,
    AssetsDefinition.asset_and_check_keys.
  destruct (AssetsDefinition.can_subset (AssetNode.assets_def n)).
  - rewrite orb_true_r. split; [set_solver|]. split.
    + intros k. rewrite !elem_of_singleton. split; congruence.
    + intros ck. rewrite elem_of_singleton. split; [done|by intros [? _]].
  - rewrite orb_false_r.
    assert (∀ k, inl k ∈ (set_map inl (AssetsDefinition.keys (AssetNode.assets_def n))
                          ∪ set_map inr (AssetsDefinition.check_keys (AssetNode.assets_def n))
                          : gset AssetKeyOrCheckKey)
                 ↔ k ∈ AssetsDefinition.keys (AssetNode.assets_def n)) as Hassets.
    { intros k. rewrite elem_of_union, !elem_of_map. split.
      - intros [(k' & [= ->] & ?)|(ck & ? & _)]; done.
      - intros ?. left. eauto. }
    assert (∀ ck, inr ck ∈ (set_map inl (AssetsDefinition.keys (AssetNode.assets_def n))
                          ∪ set_map inr (AssetsDefinition.check_keys (AssetNode.assets_def n))
                          : gset AssetKeyOrCheckKey)
                 ↔ ck ∈ AssetsDefinition.check_keys (AssetNode.assets_def n)) as Hchecks.
    { intros ck. rewrite elem_of_union, !elem_of_map. split.
      - intros [(k' & ? & _)|(ck' & [= ->] & ?)]; done.
      - intros ?. right. eauto. }
    split; [|split].
    + case_bool_decide; [set_solver|done].
    + intros k. rewrite Hassets. case_bool_decide as Hsize; [|done].
      rewrite elem_of_singleton. split.
      * intros Hk.
        destruct (decide (k = AssetNode.key n)) as [|Hne]; [done|].
        assert (2 ≤ size (AssetsDefinition.keys (AssetNode.assets_def n))); [|lia].
        assert ({[k; AssetNode.key n]} ⊆ AssetsDefinition.keys (AssetNode.assets_def n))
          as Hsub.
        { intros x [->%elem_of_singleton| ->%elem_of_singleton]%elem_of_union; done. }
        apply subseteq_size in Hsub.
        rewrite size_union, !size_singleton in Hsub; [done|].
        by apply disjoint_singleton_l, not_elem_of_singleton.
      * by intros ->.
    + intros ck. rewrite Hchecks. by intuition.
Qed.

Lemma execution_sets_agree_witness :
  ["b"] ∈ AssetNode.execution_set_asset_keys
            (ScenarioGraphs.node_of ScenarioGraphs.three_assets_graph ["a"]).
Proof.
  assert (AssetNode.key (ScenarioGraphs.node_of ScenarioGraphs.three_assets_graph ["a"])
          ∈ AssetsDefinition.keys
              (AssetNode.assets_def
                 (ScenarioGraphs.node_of ScenarioGraphs.three_assets_graph ["a"]))) as Hkey.
  { refine (bool_decide_unpack _ _). vm_compute. exact I. }
  apply (proj1 (proj2 (execution_sets_agree _ Hkey))).
  refine (bool_decide_unpack _ _). vm_compute. exact I.
Defined.

(** ** Same-run compatibility: what is left when the answer is not [True] *)

Section same_run_errors.
Context {G N : Type} {node_ops : BaseAssetNode N} {graph_ops : BaseAssetGraph G N}.
Implicit Types (asset_graph : G) (child_key parent_key : AssetKey).

(** X16. [materializable_in_same_run] raises exactly the exception of the first
    lookup that fails among those it gets to: the child's node, the parent's
    node, then, for two materializable nodes with the same partitioning, the
    partition mapping of a partitioned parent, and for a remote graph whose
    mapping clause holds, the child's and then the parent's repository
    handle. *)
Theorem materializable_in_same_run_raises asset_graph child_key parent_key (e : exn) :
  materializable_in_same_run asset_graph child_key parent_key = Raise e ↔
  get asset_graph child_key = Raise e ∨
  ∃ child_node,
    get asset_graph child_key = Ok child_node ∧
    (get asset_graph parent_key = Raise e ∨
     ∃ parent_node,
       get asset_graph parent_key = Ok parent_node ∧
       is_materializable child_node = true ∧
       is_materializable parent_node = true ∧
       partitions_def child_node = partitions_def parent_node ∧
       ((is_partitioned parent_node = true ∧
         get_partition_mapping asset_graph (key child_node) (key parent_node) = Raise e) ∨
        ((is_partitioned parent_node = false ∨
          ∃ mapping,
            get_partition_mapping asset_graph (key child_node) (key parent_node)
              = Ok mapping ∧
            isinstance_TimeWindow_or_Identity mapping = true) ∧
         isinstance_RemoteAssetGraph asset_graph = true ∧
         (get_repository_handle asset_graph child_key = Raise e ∨
          ∃ handle,
            get_repository_handle asset_graph child_key = Ok handle ∧
            get_repository_handle asset_graph parent_key = Raise e)))).
Proof.
  unfold materializable_in_same_run, py_and, py_or.
  destruct (get asset_graph child_key) as [cn|e0] eqn:Hc; simpl.
  2:{ split; [intros [= ->]; by left|]. intros [[= ->]|(? & ? & _)]; done. }
  destruct (get asset_graph parent_key) as [pn|e0] eqn:Hp; simpl.
  2:{ split; [intros [= ->]; right; exists cn; split; [done|by left]|].
      intros [?|(? & _ & [[= ->]|(? & ? & _)])]; done. }
  destruct (is_materializable cn) eqn:Hmc; simpl.
  2:{ split; [done|]. intros [?|(? & [= <-] & [?|(? & [= <-] & ? & _)])]; congruence. }
  destruct (is_materializable pn) eqn:Hmp; simpl.
  2:{ split; [done|]. intros [?|(? & [= <-] & [?|(? & [= <-] & _ & ? & _)])]; congruence. }
  case_bool_decide as Hpd; simpl.
  2:{ split; [done|]. intros [?|(? & [= <-] & [?|(? & [= <-] & _ & _ & ? & _)])]; congruence. }
  assert (∀ Q : Prop,
    (Q ↔ ((is_partitioned pn = true ∧
           get_partition_mapping asset_graph (key cn) (key pn) = Raise e) ∨
          ((is_partitioned pn = false ∨
            ∃ mapping,
              get_partition_mapping asset_graph (key cn) (key pn) = Ok mapping ∧
              isinstance_TimeWindow_or_Identity mapping = true) ∧
           isinstance_RemoteAssetGraph asset_graph = true ∧
           (get_repository_handle asset_graph child_key = Raise e ∨
            ∃ handle,
              get_repository_handle asset_graph child_key = Ok handle ∧
              get_repository_handle asset_graph parent_key = Raise e)))) →
    (Q ↔
     Ok cn = Raise e ∨
     ∃ child_node, Ok cn = Ok child_node ∧
       (Ok pn = Raise e ∨
        ∃ parent_node, Ok pn = Ok parent_node ∧
          is_materializable child_node = true ∧
          is_materializable parent_node = true ∧
          partitions_def child_node = partitions_def parent_node ∧
          ((is_partitioned parent_node = true ∧
            get_partition_mapping asset_graph (key child_node) (key parent_node)
              = Raise e) ∨
           ((is_partitioned parent_node = false ∨
             ∃ mapping,
               get_partition_mapping asset_graph (key child_node) (key parent_node)
                 = Ok mapping ∧
               isinstance_TimeWindow_or_Identity mapping = true) ∧
            isinstance_RemoteAssetGraph asset_graph = true ∧
            (get_repository_handle asset_graph child_key = Raise e ∨
             ∃ handle,
               get_repository_handle asset_graph child_key = Ok handle ∧
               get_repository_handle asset_graph parent_key = Raise e)))))) as Hnodes.
  { intros Q ->. split.
    - intros ?. right. exists cn. split; [done|]. right. exists pn. done.
    - intros [?|(? & [= <-] & [?|(? & [= <-] & _ & _ & _ & ?)])]; done. }
  apply Hnodes. clear Hnodes.
  assert ((if negb (isinstance_RemoteAssetGraph asset_graph) then Ok true
           else get_repository_handle asset_graph child_key
                ≫= λ child_handle,
                     get_repository_handle asset_graph parent_key
                     ≫= λ parent_handle, Ok (bool_decide (child_handle = parent_handle)))
          = Raise e ↔
          isinstance_RemoteAssetGraph asset_graph = true ∧
          (get_repository_handle asset_graph child_key = Raise e ∨
           ∃ handle,
             get_repository_handle asset_graph child_key = Ok handle ∧
             get_repository_handle asset_graph parent_key = Raise e)) as Hrepo.
  { destruct (isinstance_RemoteAssetGraph asset_graph); simpl; [|by intuition].
    destruct (get_repository_handle asset_graph child_key) as [hc|e1]; simpl.
    - destruct (get_repository_handle asset_graph parent_key) as [hp|e1]; simpl.
      + split; [done|]. intros [_ [?|(? & _ & ?)]]; done.
      + split; [intros [= ->]; eauto|]. intros [_ [?|(? & _ & [= ->])]]; done.
    - split; [intros [= ->]; eauto|]. intros [_ [[= ->]|(? & ? & _)]]; done. }
  destruct (is_partitioned pn) eqn:Hpart; simpl.
  - destruct (get_partition_mapping asset_graph (key cn) (key pn)) as [m|e1] eqn:Hmap; simpl.
    + destruct (isinstance_TimeWindow_or_Identity m) eqn:Hsimple; simpl.
      * rewrite Hrepo. split.
        -- intros ?. right. split; [|done]. right. eauto.
        -- intros [[_ ?]|[_ ?]]; done.
      * split; [done|].
        intros [[_ ?]|[[?|(m' & [= <-] & ?)] _]]; congruence.
    + split.
      * intros [= ->]. by left.
      * intros [[_ [= ->]]|[[?|(m' & ? & _)] _]]; done.
  - rewrite Hrepo. split.
    + intros ?. right. split; [by left|done].
    + intros [[? _]|[_ ?]]; done.
Qed.

End same_run_errors.
